(** * Line-resistance crossbar model: a shallow embedding of
      [memristor/crossbar/model.py] and the properties of its circuit
      builder, solver path and multiply operations.

    The Python class [LineResistanceCrossbar] manipulates torch tensors.
    Tensors are embedded as a shape together with the row-major list of
    their entries; every torch primitive the file calls is given by the
    shape checks it performs (raising the exception torch raises) and by
    the entries it produces.  Scalars are kept behind an interface, so
    that the index arithmetic of the builder is studied independently of
    the number representation; a binary32 instance built on [SpecFloat]
    and an exact instance on [Z] are provided. *)

From Stdlib Require Import List ZArith QArith Lia Bool Arith.
From Stdlib Require Import Floats.SpecFloat.
From Stdlib Require Import Ring_theory ZArithRing.
Import ListNotations.

Close Scope Q_scope.
Open Scope nat_scope.

Set Implicit Arguments.

(** ** Exceptions and results *)

(** The message classes of the [RuntimeError]s torch raises on the paths
    of this file. *)
Inductive runtime_error : Type :=
| NegativeDimension   (* "Trying to create tensor with negative dimension" *)
| SizeMismatch        (* broadcast / cat / matmul / index_put size or shape mismatch *)
| RankNotSupported    (* operand of a rank the primitive refuses *)
| EmptyTensorList     (* torch.cat of an empty list *)
| InvalidView         (* view to a shape of another number of elements *)
| SingularMatrix.     (* torch.inverse on a singular input *)

Inductive exn : Type :=
| TypeError                          (* a tensor was expected, None was given *)
| IndexError                         (* index out of range, too many indices *)
| ValueError                         (* tuple unpacking of a shape *)
| ZeroDivisionError                  (* Python float division by zero *)
| RuntimeError (k : runtime_error)
| InvalidMemristorModel              (* Exception('Invalid memristor model') *)
| BatchedMatmul.                     (* matmul on rank > 2: outside this model *)

Inductive result (A : Type) : Type :=
| Ok (a : A)
| Raise (e : exn).

Arguments Ok {A} a.
Arguments Raise {A} e.

Definition bind {A B : Type} (r : result A) (k : A -> result B) : result B :=
  match r with
  | Ok a => k a
  | Raise e => Raise e
  end.

Notation "x <- e ;; k" := (bind e (fun x => k))
  (at level 61, e at next level, right associativity).

Fixpoint mapM {A B : Type} (f : A -> result B) (l : list A) : result (list B) :=
  match l with
  | [] => Ok []
  | a :: l' => b <- f a ;; bs <- mapM f l' ;; Ok (b :: bs)
  end.

Fixpoint foldM {A S : Type} (f : S -> A -> result S) (l : list A) (s : S) : result S :=
  match l with
  | [] => Ok s
  | a :: l' => s' <- f s a ;; foldM f l' s'
  end.

(** ** Scalars *)

(** The arithmetic of tensor entries.  A Python number is given by its
    value, a rational: [slit q] is the entry a tensor holds for the number
    [q], [srecip q] the entry it holds for the float [1 / q], a quotient
    Python takes in its own floats before torch sees it; [sis_zero] is the
    test [x == 0]. *)
Class Scalar (R : Type) : Type := {
  szero : R;
  sone : R;
  sadd : R -> R -> R;
  ssub : R -> R -> R;
  smul : R -> R -> R;
  sdiv : R -> R -> R;
  sopp : R -> R;
  slit : Q -> R;
  srecip : Q -> R;
  sis_zero : R -> bool
}.

(** ** Tensors *)

Record tensor (R : Type) : Type := mkT {
  shape : list nat;
  data : list R
}.

Arguments mkT {R} shape data.

(** A Python value that reaches a torch call: a tensor, or [None]. *)
Inductive value (R : Type) : Type :=
| VNone
| VTensor (t : tensor R).

Arguments VNone {R}.
Arguments VTensor {R} t.

(** An item of a subscript: an integer or the full slice [:]. *)
Inductive index : Type :=
| Idx (i : Z)
| SliceAll.

Definition numel (s : list nat) : nat := fold_right Nat.mul 1 s.

Definition wf {R : Type} (t : tensor R) : Prop := length (data t) = numel (shape t).

(** Python's index normalisation: negative indices count from the end. *)
Definition wrap_index (i : Z) (d : nat) : option nat :=
  let i' := if (i <? 0)%Z then (i + Z.of_nat d)%Z else i in
  if ((0 <=? i')%Z && (i' <? Z.of_nat d)%Z)%bool then Some (Z.to_nat i') else None.

Definition chunk {R : Type} (size : nat) (o : nat) (xs : list R) : list R :=
  firstn size (skipn (o * size) xs).

Fixpoint zip_with {A B C : Type} (f : A -> B -> C) (xs : list A) (ys : list B) : list C :=
  match xs, ys with
  | x :: xs', y :: ys' => f x y :: zip_with f xs' ys'
  | _, _ => []
  end.

Fixpoint index_shape (s : list nat) (ix : list index) : result (list nat) :=
  match ix with
  | [] => Ok s
  | i :: ix' =>
      match s with
      | [] => Raise IndexError
      | d :: s' =>
          match i with
          | Idx z =>
              match wrap_index z d with
              | Some _ => index_shape s' ix'
              | None => Raise IndexError
              end
          | SliceAll => s'' <- index_shape s' ix' ;; Ok (d :: s'')
          end
      end
  end.

Fixpoint index_data {R : Type} (s : list nat) (ix : list index) (xs : list R) : list R :=
  match ix, s with
  | Idx z :: ix', d :: s' =>
      match wrap_index z d with
      | Some k => index_data s' ix' (chunk (numel s') k xs)
      | None => []
      end
  | SliceAll :: ix', d :: s' =>
      flat_map (fun o => index_data s' ix' (chunk (numel s') o xs)) (seq 0 d)
  | _, _ => xs
  end.

(** Broadcasting of two shapes, aligned at their last dimension; the
    arguments are the reversed shapes. *)
Fixpoint bshape_rev (a b : list nat) : option (list nat) :=
  match a, b with
  | [], _ => Some b
  | _, [] => Some a
  | x :: a', y :: b' =>
      match bshape_rev a' b' with
      | None => None
      | Some r =>
          if x =? y then Some (x :: r)
          else if x =? 1 then Some (y :: r)
          else if y =? 1 then Some (x :: r)
          else None
      end
  end.

Fixpoint shape_eqb (a b : list nat) : bool :=
  match a, b with
  | [], [] => true
  | x :: a', y :: b' => (x =? y) && shape_eqb a' b'
  | _, _ => false
  end.

Definition broadcast_shape (a b : list nat) : option (list nat) :=
  option_map (@rev nat) (bshape_rev (rev a) (rev b)).

Definition pad_shape (s target : list nat) : list nat :=
  repeat 1 (length target - length s) ++ s.

Fixpoint expand_data {R : Type} (s target : list nat) (xs : list R) : list R :=
  match s, target with
  | d :: s', D :: target' =>
      if d =? D
      then flat_map (fun o => expand_data s' target' (chunk (numel s') o xs)) (seq 0 D)
      else concat (repeat (expand_data s' target' xs) D)
  | _, _ => xs
  end.

Section Torch.

Context {R : Type} {SR : Scalar R}.

Local Abbreviation tensor := (tensor R).

Definition rank (t : tensor) : nat := length (shape t).

(** Tensors given by their entries. *)
Definition mk1 (len : nat) (f : nat -> R) : tensor :=
  mkT [len] (map f (seq 0 len)).

Definition mk2 (rows cols : nat) (f : nat -> nat -> R) : tensor :=
  mkT [rows; cols] (flat_map (fun r => map (f r) (seq 0 cols)) (seq 0 rows)).

Definition get1 (t : tensor) (i : nat) : R := nth i (data t) szero.

Definition get2 (t : tensor) (r c : nat) : R :=
  nth (r * nth 1 (shape t) 0 + c) (data t) szero.

(** [torch.zeros], [torch.ones]: a negative size is refused. *)
Definition full (dims : list Z) (x : R) : result tensor :=
  if forallb (fun d => (0 <=? d)%Z) dims
  then let s := map Z.to_nat dims in Ok (mkT s (repeat x (numel s)))
  else Raise (RuntimeError NegativeDimension).

Definition zeros (dims : list Z) : result tensor := full dims szero.
Definition ones (dims : list Z) : result tensor := full dims sone.

(** [torch.arange(m)], an integer tensor, as the list of its entries. *)
Definition arange (m : nat) : list Z := map Z.of_nat (seq 0 m).

(** [torch.t]: tensors of rank below 2 are returned as they are. *)
Definition t (x : tensor) : result tensor :=
  match shape x with
  | [] | [_] => Ok x
  | [r; c] => Ok (mk2 c r (fun i j => get2 x j i))
  | _ => Raise (RuntimeError RankNotSupported)
  end.

(** [torch.diag(x, diagonal=k)]: a vector becomes a square matrix with the
    vector on its k-th diagonal; a matrix gives its k-th diagonal. *)
Definition diag (x : tensor) (k : Z) : result tensor :=
  match shape x with
  | [len] =>
      let size := len + Z.abs_nat k in
      Ok (mk2 size size (fun r c =>
            if (Z.of_nat c =? Z.of_nat r + k)%Z
            then nth (if (0 <=? k)%Z then r else c) (data x) szero
            else szero))
  | [rows; cols] =>
      let len := if (0 <=? k)%Z
                 then Nat.min rows (cols - Z.to_nat k)
                 else Nat.min (rows - Z.abs_nat k) cols in
      Ok (mk1 len (fun i =>
            if (0 <=? k)%Z then get2 x i (i + Z.to_nat k) else get2 x (i + Z.abs_nat k) i))
  | _ => Raise (RuntimeError RankNotSupported)
  end.

(** [torch.cat(ts, dim)].  Tensors of shape [(0,)] are skipped; the others
    must agree on their rank and on every size but the one at [dim]. *)
Definition is_legacy_empty (x : tensor) : bool :=
  match shape x with
  | [0] => true
  | _ => false
  end.

Definition shape_but (dim : nat) (s : list nat) : list nat :=
  firstn dim s ++ skipn (S dim) s.

Definition cat (ts : list tensor) (dim : nat) : result tensor :=
  match ts with
  | [] => Raise (RuntimeError EmptyTensorList)
  | _ =>
      match filter (fun x => negb (is_legacy_empty x)) ts with
      | [] => Ok (mkT [0] [])
      | x0 :: rest =>
          let s0 := shape x0 in
          if length s0 =? 0 then Raise (RuntimeError RankNotSupported)
          else if length s0 <=? dim then Raise IndexError
          else if forallb (fun x => (length (shape x) =? length s0)
                             && shape_eqb (shape_but dim (shape x)) (shape_but dim s0))
                          rest
          then
            let live := x0 :: rest in
            let outer := numel (firstn dim s0) in
            let total := list_sum (map (fun x => nth dim (shape x) 0) live) in
            Ok (mkT (firstn dim s0 ++ total :: skipn (S dim) s0)
                    (flat_map (fun o =>
                       flat_map (fun x => chunk (numel (skipn dim (shape x))) o (data x)) live)
                       (seq 0 outer)))
          else Raise (RuntimeError SizeMismatch)
      end
  end.

(** [torch.cat] as Python calls it: an argument that is [None] is a
    [TypeError]. *)
Fixpoint tensors_of (vs : list (value R)) : option (list tensor) :=
  match vs with
  | [] => Some []
  | VNone :: _ => None
  | VTensor x :: vs' => option_map (cons x) (tensors_of vs')
  end.

Definition cat_values (vs : list (value R)) (dim : nat) : result tensor :=
  match tensors_of vs with
  | Some ts => cat ts dim
  | None => Raise TypeError
  end.

(** [torch.block_diag]: each argument of rank at most 2 is read as a
    matrix and placed on the diagonal of a zero matrix. *)
Definition as_matrix (x : tensor) : result (nat * nat * tensor) :=
  match shape x with
  | [] => Ok (1, 1, mkT [1; 1] (data x))
  | [k] => Ok (1, k, mkT [1; k] (data x))
  | [r; c] => Ok (r, c, x)
  | _ => Raise (RuntimeError RankNotSupported)
  end.

Fixpoint block_entry (bs : list (nat * nat * tensor)) (r c : nat) : R :=
  match bs with
  | [] => szero
  | (rows, cols, b) :: bs' =>
      if r <? rows
      then (if c <? cols then get2 b r c else szero)
      else (if c <? cols then szero else block_entry bs' (r - rows) (c - cols))
  end.

Definition block_diag (ts : list tensor) : result tensor :=
  match ts with
  | [] => Ok (mkT [1; 0] [])
  | _ =>
      bs <- mapM as_matrix ts ;;
      Ok (mk2 (list_sum (map (fun b => fst (fst b)) bs))
              (list_sum (map (fun b => snd (fst b)) bs))
              (block_entry bs))
  end.

(** [x.index_put((rows, cols), values)] on a matrix: the entries at the
    listed positions are replaced, a later position winning over an
    earlier equal one. *)
Fixpoint put_entry (l : list (nat * nat * R)) (r c : nat) (default : R) : R :=
  match l with
  | [] => default
  | (i, j, v) :: l' =>
      put_entry l' r c (if ((i =? r) && (j =? c))%bool then v else default)
  end.

Definition wrap_all (zs : list Z) (d : nat) : option (list nat) :=
  fold_right (fun i acc =>
                match wrap_index i d, acc with
                | Some k, Some ks => Some (k :: ks)
                | _, _ => None
                end) (Some []) zs.

Definition index_put (x : tensor) (rows cols : list Z) (values : tensor) : result tensor :=
  match shape x with
  | [nr; nc] =>
      if negb (length rows =? length cols) then Raise IndexError
      else
        match broadcast_shape (shape values) [length rows] with
        | Some s =>
            if shape_eqb s [length rows]
            then
              match wrap_all rows nr, wrap_all cols nc with
              | Some rs, Some cs =>
                  let vs := expand_data (pad_shape (shape values) s) s (data values) in
                  let l := combine (combine rs cs) vs in
                  Ok (mk2 nr nc (fun r c => put_entry l r c (get2 x r c)))
              | _, _ => Raise IndexError
              end
            else Raise (RuntimeError SizeMismatch)
        | None => Raise (RuntimeError SizeMismatch)
        end
  | _ => Raise IndexError
  end.

(** [x.view(dims)], one entry of [dims] may be [-1]. *)
Definition view (x : tensor) (dims : list Z) : result tensor :=
  let known := filter (fun d => negb (d =? -1)%Z) dims in
  let holes := length dims - length known in
  if negb (forallb (fun d => (0 <=? d)%Z) known) then Raise (RuntimeError InvalidView)
  else
    let p := numel (map Z.to_nat known) in
    let total := numel (shape x) in
    match holes with
    | 0 => if p =? total then Ok (mkT (map Z.to_nat dims) (data x))
           else Raise (RuntimeError InvalidView)
    | 1 => if (p =? 0) || negb (total mod p =? 0) then Raise (RuntimeError InvalidView)
           else Ok (mkT (map (fun d => if (d =? -1)%Z then total / p else Z.to_nat d) dims)
                        (data x))
    | _ => Raise (RuntimeError InvalidView)
    end.

(** [x.unsqueeze(dim)] and [x.squeeze()]. *)
Definition unsqueeze (x : tensor) (dim : nat) : result tensor :=
  if dim <=? length (shape x)
  then Ok (mkT (firstn dim (shape x) ++ 1 :: skipn dim (shape x)) (data x))
  else Raise IndexError.

Definition squeeze (x : tensor) : tensor :=
  mkT (filter (fun d => negb (d =? 1)) (shape x)) (data x).

(** Subscripting, [x[i, :, ...]]. *)
Definition getitem (x : tensor) (ix : list index) : result tensor :=
  s <- index_shape (shape x) ix ;;
  Ok (mkT s (index_data (shape x) ix (data x))).

(** Assignment to one entry of a matrix, [d[i, j] = v]; [v] holds one
    element, in a shape all of whose sizes are 1. *)
Definition setitem2 (d : tensor) (i j : Z) (v : tensor) : result tensor :=
  match shape d with
  | [nr; nc] =>
      match wrap_index i nr, wrap_index j nc with
      | Some r, Some c =>
          if forallb (fun k => k =? 1) (shape v)
          then Ok (mk2 nr nc (fun r' c' =>
                     if ((r' =? r) && (c' =? c))%bool then nth 0 (data v) szero
                     else get2 d r' c'))
          else Raise (RuntimeError SizeMismatch)
      | _, _ => Raise IndexError
      end
  | _ => Raise IndexError
  end.

(** Elementwise arithmetic with broadcasting. *)
Definition binop (f : R -> R -> R) (a b : tensor) : result tensor :=
  match broadcast_shape (shape a) (shape b) with
  | Some s =>
      Ok (mkT s (zip_with f
                   (expand_data (pad_shape (shape a) s) s (data a))
                   (expand_data (pad_shape (shape b) s) s (data b))))
  | None => Raise (RuntimeError SizeMismatch)
  end.

Definition tadd := binop sadd.
Definition tsub := binop ssub.
Definition tmul := binop smul.
Definition tdiv := binop sdiv.

Definition tmap (f : R -> R) (x : tensor) : tensor := mkT (shape x) (map f (data x)).

Definition tneg : tensor -> tensor := tmap sopp.

(** A tensor times, or divided by, a Python number. *)
Definition tmuls (x : tensor) (c : R) : tensor := tmap (fun a => smul a c) x.
Definition tdivs (x : tensor) (c : R) : tensor := tmap (fun a => sdiv a c) x.

(** [torch.matmul] on operands of rank 1 and 2; a sum of products is
    accumulated from zero in index order. *)
Definition dot (xs ys : list R) : R :=
  fold_left sadd (zip_with smul xs ys) szero.

Definition row (x : tensor) (r : nat) : list R :=
  chunk (nth 1 (shape x) 0) r (data x).

Definition col (x : tensor) (c : nat) : list R :=
  map (fun r => get2 x r c) (seq 0 (nth 0 (shape x) 0)).

Definition matmul (a b : tensor) : result tensor :=
  match shape a, shape b with
  | [], _ | _, [] => Raise (RuntimeError RankNotSupported)
  | [k], [k'] =>
      if k =? k' then Ok (mkT [] [dot (data a) (data b)])
      else Raise (RuntimeError SizeMismatch)
  | [r; k], [k'] =>
      if k =? k' then Ok (mk1 r (fun i => dot (row a i) (data b)))
      else Raise (RuntimeError SizeMismatch)
  | [k], [k'; c] =>
      if k =? k' then Ok (mk1 c (fun j => dot (data a) (col b j)))
      else Raise (RuntimeError SizeMismatch)
  | [r; k], [k'; c] =>
      if k =? k' then Ok (mk2 r c (fun i j => dot (row a i) (col b j)))
      else Raise (RuntimeError SizeMismatch)
  | _, _ => Raise BatchedMatmul
  end.

(** [torch.sum(x, dim=1)], accumulated from zero in index order. *)
Definition sum_dim1 (x : tensor) : result tensor :=
  match shape x with
  | d0 :: d1 :: s' =>
      let inner := numel s' in
      Ok (mkT (d0 :: s')
              (flat_map (fun o =>
                 map (fun i =>
                        fold_left sadd
                          (map (fun j => nth ((o * d1 + j) * inner + i) (data x) szero)
                               (seq 0 d1))
                          szero)
                     (seq 0 inner))
                 (seq 0 d0)))
  | _ => Raise IndexError
  end.

(** [torch.tensor(rows)] of a list of lists of numbers. *)
Definition tensor_of_rows (rows : list (list R)) : tensor :=
  match rows with
  | [] => mkT [0] []
  | r0 :: _ => mkT [length rows; length r0] (concat rows)
  end.

End Torch.

(** ** External collaborators *)

(** A calibrated device: its linear-fit conductance and its current
    response.  The device classes live in [..devices]; the crossbar only
    constructs them, calibrates them and reads these two members. *)
Record memristor (R : Type) : Type := {
  g_linfit : R;
  inference : R -> R
}.

Inductive memristor_model : Type :=
| StaticMemristor
| DynamicMemristor
| OtherModel.

Record memristor_params (R : Type) : Type := {
  temperature : R;
  frequency : R
}.

(** The dictionary [crossbar_params]: Python numbers. *)
Record crossbar_params : Type := {
  r_wl : Q;
  r_bl : Q;
  r_in : Q;
  r_out : Q
}.

(** The device library: construction from a conductance, and
    calibration. *)
Class Devices (R : Type) : Type := {
  device_new : memristor_model -> R -> memristor R;
  device_calibrate : memristor R -> R -> R -> memristor R
}.

(** [torch.inverse]. *)
Class Inverse (R : Type) : Type :=
  torch_inverse : tensor R -> result (tensor R).

(** ** The crossbar *)

Record crossbar (R : Type) : Type := {
  model : memristor_model;
  params : memristor_params R;
  memristors : list (list (memristor R));
  ideal_w : tensor R;
  n : nat;
  m : nat;
  fitted_w : tensor R;
  g_wl : tensor R;
  g_bl : tensor R;
  cb_r_in : Q;
  cb_r_out : Q;
  g_s_wl_in : tensor R;
  g_s_wl_out : tensor R;
  g_s_bl_in : tensor R;
  g_s_bl_out : tensor R;
  v_bl_in : tensor R;
  v_bl_out : tensor R;
  v_wl_out : tensor R
}.

(** The entry [self.cache["M_inv"]]. *)
Definition cache (R : Type) : Type := option (tensor R).

Section Crossbar.

Context {R : Type} {SR : Scalar R} {DV : Devices R} {INV : Inverse R}.

Local Abbreviation tensor := (tensor R).
Local Abbreviation crossbar := (crossbar R).

Definition zn (k : nat) : Z := Z.of_nat k.

(** The number held by a one-element tensor. *)
Definition item (x : tensor) : R := nth 0 (data x) szero.

Definition initialize_memristor (mm : memristor_model) (mp : memristor_params R) (g_0 : R)
  : result (memristor R) :=
  match mm with
  | StaticMemristor =>
      Ok (device_calibrate (device_new StaticMemristor g_0) (temperature mp) (frequency mp))
  | DynamicMemristor =>
      Ok (device_calibrate (device_new DynamicMemristor g_0) (temperature mp) (frequency mp))
  | OtherModel => Raise InvalidMemristorModel
  end.

(** [LineResistanceCrossbar.__init__]. *)
Definition init (mm : memristor_model) (mp : memristor_params R) (w : tensor)
  (cp : crossbar_params) : result crossbar :=
  match shape w with
  | [] => Raise IndexError
  | [d0] => if d0 =? 0 then Raise ValueError else Raise IndexError
  | [d0; d1] =>
      mems <- mapM (fun i =>
                mapM (fun j => initialize_memristor mm mp (get2 w i j)) (seq 0 d1))
                (seq 0 d0) ;;
      let fitted := squeeze (tensor_of_rows (map (map (@g_linfit R)) mems)) in
      if Qeq_bool (r_wl cp) 0 then Raise ZeroDivisionError
      else if Qeq_bool (r_bl cp) 0 then Raise ZeroDivisionError
      else
        ones_m <- ones [zn d1] ;;
        ones_m' <- ones [zn d1] ;;
        ones_n <- ones [zn d0] ;;
        ones_n' <- ones [zn d0] ;;
        zeros_n <- zeros [zn d0] ;;
        zeros_n' <- zeros [zn d0] ;;
        zeros_m <- zeros [zn d1] ;;
        Ok {| model := mm;
              params := mp;
              memristors := mems;
              ideal_w := w;
              n := d0;
              m := d1;
              fitted_w := fitted;
              g_wl := mkT [1] [srecip (r_wl cp)];
              g_bl := mkT [1] [srecip (r_bl cp)];
              cb_r_in := r_in cp;
              cb_r_out := r_out cp;
              g_s_wl_in := tdivs ones_m (slit (r_in cp));
              g_s_wl_out := tmuls ones_m' (slit 1e-15%Q);
              g_s_bl_in := tmuls ones_n (slit 1e-15%Q);
              g_s_bl_out := tdivs ones_n' (slit (r_out cp));
              v_bl_in := zeros_n;
              v_bl_out := zeros_n';
              v_wl_out := zeros_m |}
  | d0 :: d1 :: _ =>
      match mm with
      | OtherModel => if d0 * d1 =? 0 then Raise ValueError else Raise InvalidMemristorModel
      | _ => Raise ValueError
      end
  end.

(** [ideal_vmm] and [naive_linear_memristive_vmm]. *)
Definition ideal_vmm (cb : crossbar) (v : tensor) : result tensor :=
  matmul (ideal_w cb) v.

Definition naive_linear_memristive_vmm (cb : crossbar) (v : tensor) : result tensor :=
  matmul (fitted_w cb) v.

(** [make_A]: the word-line equations. *)
Definition makea (cb : crossbar) (W_t : tensor) (i : nat) : result tensor :=
  let nn := zn (n cb) in
  wrow <- getitem W_t [Idx (zn i); SliceAll] ;;
  d1 <- diag wrow 0 ;;
  o2 <- ones [(nn - 2)%Z] ;;
  l2 <- tmul (tmuls (g_wl cb) (slit 2%Q)) o2 ;;
  c2 <- cat [g_wl cb; l2; g_wl cb] 0 ;;
  d2 <- diag c2 0 ;;
  s2 <- tadd d1 d2 ;;
  o3 <- ones [(nn - 1)%Z] ;;
  l3 <- tmul (tmuls (g_wl cb) (slit (-1)%Q)) o3 ;;
  d3 <- diag l3 1 ;;
  s3 <- tadd s2 d3 ;;
  o4 <- ones [(nn - 1)%Z] ;;
  l4 <- tmul (tmuls (g_wl cb) (slit (-1)%Q)) o4 ;;
  d4 <- diag l4 (-1) ;;
  s4 <- tadd s3 d4 ;;
  gin <- getitem (g_s_wl_in cb) [Idx (zn i)] ;;
  gin1 <- view gin [1%Z] ;;
  z5 <- zeros [(nn - 2)%Z] ;;
  gout <- getitem (g_s_wl_out cb) [Idx (zn i)] ;;
  gout1 <- view gout [1%Z] ;;
  c5 <- cat [gin1; z5; gout1] 0 ;;
  d5 <- diag c5 0 ;;
  tadd s4 d5.

Definition make_A (cb : crossbar) (W : tensor) : result tensor :=
  W_t <- t W ;;
  blocks <- mapM (makea cb W_t) (seq 0 (m cb)) ;;
  block_diag blocks.

(** [make_B]: the word-to-bit coupling. *)
Definition makeb (W_t : tensor) (i : nat) : result tensor :=
  wrow <- getitem W_t [Idx (zn i); SliceAll] ;;
  d <- diag wrow 0 ;;
  Ok (tneg d).

Definition make_B (cb : crossbar) (W : tensor) : result tensor :=
  W_t <- t W ;;
  blocks <- mapM (makeb W_t) (seq 0 (m cb)) ;;
  block_diag blocks.

(** [make_C]: the bit-to-word coupling.  [make_C_block] is the matrix the
    last statement of the function concatenates; the function has no
    [return], so the call evaluates to [None]. *)
Definition makec (cb : crossbar) (W_t : tensor) (j : nat) : result tensor :=
  let mm := m cb in
  z <- zeros [zn mm; zn (mm * n cb)] ;;
  wcol <- getitem W_t [SliceAll; Idx (zn j)] ;;
  index_put z (arange mm) (map (fun k => (k * zn (n cb) + zn j)%Z) (arange mm)) wcol.

Definition make_C_block (cb : crossbar) (W : tensor) : result tensor :=
  W_t <- t W ;;
  blocks <- mapM (makec cb W_t) (seq 0 (n cb)) ;;
  cat blocks 0.

Definition make_C (cb : crossbar) (W : tensor) : result (value R) :=
  _ <- make_C_block cb W ;;
  Ok VNone.

(** [make_D]: the bit-line equations. *)
Definition maked_row (cb : crossbar) (W_t : tensor) (j : nat) (d : tensor) (i : nat)
  : result tensor :=
  let nn := zn (n cb) in
  let i' := zn i in
  da <- setitem2 d i' (nn * (i' - 1) + zn j)%Z (g_bl cb) ;;
  w <- getitem W_t [Idx i'; Idx (zn j)] ;;
  x <- tsub (tneg (g_bl cb)) w ;;
  y <- tsub x (g_bl cb) ;;
  db <- setitem2 da i' (nn * i' + zn j)%Z y ;;
  setitem2 db i' (zn j) (g_bl cb).

Definition maked (cb : crossbar) (W_t : tensor) (j : nat) : result tensor :=
  let nn := zn (n cb) in
  let mm := m cb in
  d0 <- zeros [zn mm; zn (mm * n cb)] ;;
  gin <- getitem (g_s_bl_in cb) [Idx (zn j)] ;;
  x1 <- tsub (tneg gin) (g_bl cb) ;;
  w0 <- getitem W_t [Idx 0%Z; Idx (zn j)] ;;
  y1 <- tsub x1 w0 ;;
  d1 <- setitem2 d0 0%Z (zn j) y1 ;;
  d2 <- setitem2 d1 0%Z (nn * (0 + 1) + zn j)%Z (g_bl cb) ;;
  d3 <- foldM (maked_row cb W_t j) (seq 1 (mm - 1)) d2 ;;
  let i := (zn mm - 1)%Z in
  d4 <- setitem2 d3 i (nn * (i - 1) + zn j)%Z (g_bl cb) ;;
  gout <- getitem (g_s_bl_out cb) [Idx (zn j)] ;;
  wl <- getitem W_t [Idx i; Idx (zn j)] ;;
  x5 <- tsub (tneg gout) wl ;;
  y5 <- tsub x5 (g_bl cb) ;;
  setitem2 d4 i (nn * i + zn j)%Z y5.

Definition make_D (cb : crossbar) (W : tensor) : result tensor :=
  W_t <- t W ;;
  blocks <- mapM (maked cb W_t) (seq 0 (n cb)) ;;
  cat blocks 0.

(** [make_E]: the right-hand side. *)
Definition make_E_B_col (cb : crossbar) (i : nat) : result tensor :=
  a <- getitem (v_bl_in cb) [Idx (zn i)] ;;
  g <- getitem (g_s_bl_in cb) [Idx (zn i)] ;;
  p <- tmul (tneg a) g ;;
  p1 <- view p [1%Z] ;;
  z <- zeros [(zn (n cb) - 2)%Z] ;;
  a' <- getitem (v_bl_in cb) [Idx (zn i)] ;;
  g' <- getitem (g_s_bl_out cb) [Idx (zn i)] ;;
  q <- tmul (tneg a') g' ;;
  q1 <- view q [1%Z] ;;
  c <- cat [p1; z; q1] 0 ;;
  unsqueeze c 1.

Definition make_E_W_col (cb : crossbar) (v_applied : tensor) (i : nat) : result tensor :=
  a <- getitem v_applied [Idx (zn i)] ;;
  g <- getitem (g_s_wl_in cb) [Idx (zn i)] ;;
  p <- tmul a g ;;
  p1 <- view p [1%Z] ;;
  z <- zeros [(zn (n cb) - 2)%Z] ;;
  o <- getitem (v_wl_out cb) [Idx (zn i)] ;;
  o1 <- view o [1%Z] ;;
  g' <- getitem (g_s_wl_out cb) [Idx (zn i)] ;;
  q <- tmul o1 g' ;;
  q1 <- view q [1%Z] ;;
  cat [p1; z; q1] 0.

Definition make_E (cb : crossbar) (v_applied : tensor) : result tensor :=
  bcols <- mapM (make_E_B_col cb) (seq 0 (m cb)) ;;
  E_B <- cat bcols 0 ;;
  wcols <- mapM (make_E_W_col cb v_applied) (seq 0 (m cb)) ;;
  E_W0 <- cat wcols 0 ;;
  E_W <- unsqueeze E_W0 1 ;;
  cat [E_W; E_B] 0.

(** [solve_v]: assemble [M = [A, B; C, D]], invert it, store the inverse
    in the cache and return [M_inv E]. *)
Definition assemble (cb : crossbar) (W v_applied : tensor) : result (tensor * tensor) :=
  A <- make_A cb W ;;
  B <- make_B cb W ;;
  C <- make_C cb W ;;
  D <- make_D cb W ;;
  E <- make_E cb v_applied ;;
  AB <- cat_values [VTensor A; VTensor B] 1 ;;
  CD <- cat_values [C; VTensor D] 1 ;;
  M <- cat_values [VTensor AB; VTensor CD] 0 ;;
  Ok (M, E).

Definition solve_v (cb : crossbar) (W v_applied : tensor) (c : cache R)
  : result tensor * cache R :=
  match assemble cb W v_applied with
  | Raise e => (Raise e, c)
  | Ok (M, E) =>
      match torch_inverse M with
      | Raise e => (Raise e, c)
      | Ok M_inv => (matmul M_inv E, Some M_inv)
      end
  end.

(** [lineres_memristive_vmm].  [refine_W] is the conductance update of one
    round of the loop, [readout] the statements after the loop. *)
Definition split_wl_bl (V_crossbar : tensor) : result (tensor * tensor) :=
  w0 <- getitem V_crossbar [Idx 0%Z; SliceAll; SliceAll] ;;
  V_wl <- t w0 ;;
  b0 <- getitem V_crossbar [Idx 1%Z; SliceAll; SliceAll] ;;
  V_bl <- t b0 ;;
  Ok (V_wl, V_bl).

Definition device_at (cb : crossbar) (i j : nat) : result (memristor R) :=
  match nth_error (memristors cb) i with
  | Some r =>
      match nth_error r j with
      | Some d => Ok d
      | None => Raise IndexError
      end
  | None => Raise IndexError
  end.

Definition refine_W (cb : crossbar) (V_crossbar : tensor) : result tensor :=
  V3 <- view V_crossbar [(-1)%Z; zn (m cb); zn (n cb)] ;;
  wb <- split_wl_bl V3 ;;
  V_diff <- tsub (snd wb) (fst wb) ;;
  currents <- mapM (fun i =>
                mapM (fun j =>
                  d <- device_at cb i j ;;
                  x <- getitem V_diff [Idx (zn i); Idx (zn j)] ;;
                  Ok (inference d (item x)))
                  (seq 0 (m cb)))
                (seq 0 (n cb)) ;;
  tdiv (tensor_of_rows currents) V_diff.

Fixpoint refine_loop (cb : crossbar) (v_applied : tensor) (rounds : nat)
  (W V_crossbar : tensor) (c : cache R) : result (tensor * tensor) * cache R :=
  match rounds with
  | 0 => (Ok (W, V_crossbar), c)
  | S k =>
      match refine_W cb V_crossbar with
      | Raise e => (Raise e, c)
      | Ok W' =>
          match solve_v cb W' v_applied c with
          | (Raise e, c') => (Raise e, c')
          | (Ok V', c') => refine_loop cb v_applied k W' V' c'
          end
      end
  end.

Definition readout (V_crossbar W : tensor) : result tensor :=
  wb <- split_wl_bl V_crossbar ;;
  V_diff <- tsub (snd wb) (fst wb) ;;
  I <- tmul V_diff W ;;
  sum_dim1 I.

Definition lineres_memristive_vmm (cb : crossbar) (v_applied : tensor) (iter : Z)
  (c : cache R) : result tensor * cache R :=
  match solve_v cb (fitted_w cb) v_applied c with
  | (Raise e, c') => (Raise e, c')
  | (Ok V, c') =>
      match refine_loop cb v_applied (Z.to_nat iter) (fitted_w cb) V c' with
      | (Raise e, c'') => (Raise e, c'')
      | (Ok (W, V'), c'') => (readout V' W, c'')
      end
  end.

End Crossbar.

(** ** Instances *)

(** Exact integer scalars. *)
#[export] Instance Z_scalar : Scalar Z := {|
  szero := 0%Z;
  sone := 1%Z;
  sadd := Z.add;
  ssub := Z.sub;
  smul := Z.mul;
  sdiv := Z.div;
  sopp := Z.opp;
  slit := fun q => (Qnum q / Zpos (Qden q))%Z;
  srecip := fun q => (Zpos (Qden q) / Qnum q)%Z;
  sis_zero := Z.eqb 0
|}.

(** IEEE 754 binary32, the default dtype of torch tensors.  A Python
    float is a binary64 number, which torch rounds to binary32 when it
    meets a tensor. *)
Definition float_of_Z (z : Z) : spec_float :=
  match z with
  | Z0 => S754_zero false
  | Zpos p => S754_finite false p 0
  | Zneg p => S754_finite true p 0
  end.

Definition f64_lit (q : Q) : spec_float :=
  SFdiv 53 1024 (float_of_Z (Qnum q)) (float_of_Z (Zpos (Qden q))).

Definition f32_of_f64 (x : spec_float) : spec_float :=
  match x with
  | S754_finite s m e => binary_round 24 128 s m e
  | _ => x
  end.

Definition f32_lit (q : Q) : spec_float := f32_of_f64 (f64_lit q).

Definition f32_recip (q : Q) : spec_float :=
  f32_of_f64 (SFdiv 53 1024 (SFone 53 1024) (f64_lit q)).

Definition f32_is_zero (x : spec_float) : bool :=
  match x with
  | S754_zero _ => true
  | _ => false
  end.

#[export] Instance binary32 : Scalar spec_float := {|
  szero := S754_zero false;
  sone := SFone 24 128;
  sadd := SFadd 24 128;
  ssub := SFsub 24 128;
  smul := SFmul 24 128;
  sdiv := SFdiv 24 128;
  sopp := SFopp;
  slit := f32_lit;
  srecip := f32_recip;
  sis_zero := f32_is_zero
|}.

(** A device with a linear response: a conductance [g] answering the
    current [g * v]; calibration leaves it as it is. *)
Definition ohmic {R : Type} {SR : Scalar R} (g : R) : memristor R :=
  {| g_linfit := g; inference := fun v => smul g v |}.

Definition ohmic_devices {R : Type} {SR : Scalar R} : Devices R :=
  {| device_new := fun _ g_0 => ohmic g_0;
     device_calibrate := fun d _ _ => d |}.

(** A matrix inverse by Gauss-Jordan elimination on [M | I], pivoting on
    the first row with a nonzero entry; an executable instance of
    [Inverse], every statement below holding for any instance. *)
Section Elimination.

Context {R : Type} {SR : Scalar R}.

Definition unit_row (size i : nat) : list R :=
  map (fun j => if j =? i then sone else szero) (seq 0 size).

Definition row_scale (c : R) (r : list R) : list R := map (fun x => sdiv x c) r.

Definition row_sub (c : R) (p r : list R) : list R :=
  zip_with (fun x y => ssub y (smul c x)) p r.

Fixpoint find_pivot (k : nat) (rows : list (list R)) : option (list R * list (list R)) :=
  match rows with
  | [] => None
  | r :: rows' =>
      if sis_zero (nth k r szero)
      then match find_pivot k rows' with
           | Some (p, others) => Some (p, r :: others)
           | None => None
           end
      else Some (r, rows')
  end.

Fixpoint eliminate (steps k : nat) (done todo : list (list R)) : option (list (list R)) :=
  match steps with
  | 0 => Some done
  | S steps' =>
      match find_pivot k todo with
      | None => None
      | Some (p, others) =>
          let p' := row_scale (nth k p szero) p in
          let clear r := row_sub (nth k r szero) p' r in
          eliminate steps' (S k) (map clear done ++ [p']) (map clear others)
      end
  end.

Definition gauss_jordan : Inverse R :=
  fun M =>
    match shape M with
    | [r; c] =>
        if r =? c
        then
          let aug := map (fun i => chunk c i (data M) ++ unit_row r i) (seq 0 r) in
          match eliminate r 0 [] aug with
          | Some rows => Ok (mkT [r; r] (flat_map (skipn r) rows))
          | None => Raise (RuntimeError SingularMatrix)
          end
        else Raise (RuntimeError RankNotSupported)
    | _ => Raise (RuntimeError RankNotSupported)
    end.

End Elimination.

(** ** Example inputs *)

(** Which exceptions report a disagreement between a tensor's shape and
    the shape a primitive expects: an index past a size or past the rank,
    sizes that do not broadcast, a rank the primitive refuses. *)
Definition is_shape_mismatch (e : exn) : bool :=
  match e with
  | IndexError => true
  | RuntimeError SizeMismatch => true
  | RuntimeError RankNotSupported => true
  | _ => false
  end.

Definition raises_shape_mismatch {A : Type} (r : result A) : bool :=
  match r with
  | Raise e => is_shape_mismatch e
  | Ok _ => false
  end.

Definition on_crossbar {R : Type} (r : result (crossbar R)) (P : crossbar R -> Prop) : Prop :=
  match r with
  | Ok cb => P cb
  | Raise _ => False
  end.

Definition unit_params : crossbar_params :=
  {| r_wl := 1%Q; r_bl := 1%Q; r_in := 1%Q; r_out := 1%Q |}.

Definition room_Z : memristor_params Z :=
  {| temperature := 0%Z; frequency := 0%Z |}.

Definition W22 : tensor Z := mkT [2; 2] [1; 2; 3; 4]%Z.

Definition crossbar22 : result (crossbar Z) :=
  init (DV := ohmic_devices) StaticMemristor room_Z W22 unit_params.

Definition f32 (q : Q) : spec_float := f32_lit q.

Definition room_f32 : memristor_params spec_float :=
  {| temperature := f32 300; frequency := f32 1 |}.

Definition crossbar_f32 (w : tensor spec_float) : result (crossbar spec_float) :=
  init (DV := ohmic_devices) StaticMemristor room_f32 w unit_params.

Definition W22_f32 : tensor spec_float :=
  mkT [2; 2] [f32 1e-4; f32 2e-4; f32 5e-5; f32 1e-4].

(** A node-voltage vector of the [2 x 2] crossbar whose first device has
    the same voltage on its word line and on its bit line. *)
Definition V_flat_cell : tensor spec_float :=
  mkT [8; 1] [f32 0.1; f32 0.2; f32 0.3; f32 0.4; f32 0.1; f32 0.1; f32 0.1; f32 0.1].

Definition with_v_bl_out {R : Type} (cb : crossbar R) (bias : tensor R) : crossbar R :=
  {| model := model cb;
     params := params cb;
     memristors := memristors cb;
     ideal_w := ideal_w cb;
     n := n cb;
     m := m cb;
     fitted_w := fitted_w cb;
     g_wl := g_wl cb;
     g_bl := g_bl cb;
     cb_r_in := cb_r_in cb;
     cb_r_out := cb_r_out cb;
     g_s_wl_in := g_s_wl_in cb;
     g_s_wl_out := g_s_wl_out cb;
     g_s_bl_in := g_s_bl_in cb;
     g_s_bl_out := g_s_bl_out cb;
     v_bl_in := v_bl_in cb;
     v_bl_out := bias;
     v_wl_out := v_wl_out cb |}.

(** ** Well-shaped crossbars *)

Definition vector_of {R : Type} (k : nat) (x : tensor R) : Prop :=
  shape x = [k] /\ length (data x) = k.

(** The shapes [__init__] gives to the attributes of a crossbar. *)
Record well_shaped {R : Type} (cb : crossbar R) : Prop := {
  ws_rows : length (memristors cb) = n cb;
  ws_cols : Forall (fun r => length r = m cb) (memristors cb);
  ws_g_wl : vector_of 1 (g_wl cb);
  ws_g_bl : vector_of 1 (g_bl cb);
  ws_g_s_wl_in : vector_of (m cb) (g_s_wl_in cb);
  ws_g_s_wl_out : vector_of (m cb) (g_s_wl_out cb);
  ws_g_s_bl_in : vector_of (n cb) (g_s_bl_in cb);
  ws_g_s_bl_out : vector_of (n cb) (g_s_bl_out cb);
  ws_v_bl_in : vector_of (n cb) (v_bl_in cb);
  ws_v_bl_out : vector_of (n cb) (v_bl_out cb);
  ws_v_wl_out : vector_of (m cb) (v_wl_out cb)
}.

(** The diagonal blocks of [B] and the row blocks of [C], entry by entry:
    what [-torch.diag(W_t[i, :])] and [makec(j)] compute on an [n x m]
    matrix [W]. *)
Definition B_block {R : Type} {SR : Scalar R} (cb : crossbar R) (W : tensor R) (i : nat)
  : tensor R :=
  mk2 (n cb) (n cb) (fun r c => sopp (if c =? r then get2 W r i else szero)).

Definition C_block {R : Type} {SR : Scalar R} (cb : crossbar R) (W : tensor R) (j : nat)
  : tensor R :=
  mk2 (m cb) (m cb * n cb) (fun r c => if c =? r * n cb + j then get2 W j r else szero).

(** A call that returns a tensor of a given shape. *)
Definition has_shape {R : Type} (r : result (tensor R)) (s : list nat) : Prop :=
  exists x, r = Ok x /\ shape x = s.

(** The voltage drop across the device of row [i] and column [j] in a
    solved node-voltage vector: its bit-line entry minus its word-line
    entry. *)
Definition voltage_drop {R : Type} {SR : Scalar R} (cb : crossbar R) (V : tensor R)
  (i j : nat) : R :=
  ssub (nth (m cb * n cb + j * n cb + i) (data V) szero)
       (nth (j * n cb + i) (data V) szero).

Definition spare_device {R : Type} {SR : Scalar R} : memristor R :=
  {| g_linfit := szero; inference := fun v => v |}.

Definition device {R : Type} {SR : Scalar R} (cb : crossbar R) (i j : nat) : memristor R :=
  nth j (nth i (memristors cb) []) spare_device.

(** The word-line ([k = 0]) and bit-line ([k = 1]) halves of a solved
    vector viewed as [2 x m x n], the drops across the devices, and the
    currents the devices answer. *)
Definition plane {R : Type} (cb : crossbar R) (V : tensor R) (k : nat) : tensor R :=
  mkT [m cb; n cb] (chunk (m cb * n cb) k (data V)).

Definition V_diff {R : Type} {SR : Scalar R} (cb : crossbar R) (V : tensor R) : tensor R :=
  mk2 (n cb) (m cb) (fun i j => ssub (get2 (plane cb V 1) j i) (get2 (plane cb V 0) j i)).

Definition current {R : Type} {SR : Scalar R} (cb : crossbar R) (V : tensor R)
  (i j : nat) : R :=
  inference (device cb i j) (voltage_drop cb V i j).

(** The entries [make_E] computes for column [i]: the word-line nodes of
    the column, then (in the second half of [E]) the bit-line nodes the
    same index is used for. *)
Definition E_W_entries {R : Type} {SR : Scalar R} (cb : crossbar R) (v : tensor R)
  (i : nat) : list R :=
  smul (nth i (data v) szero) (nth i (data (g_s_wl_in cb)) szero)
  :: repeat szero (n cb - 2)
  ++ [smul (nth i (data (v_wl_out cb)) szero) (nth i (data (g_s_wl_out cb)) szero)].

Definition E_B_entries {R : Type} {SR : Scalar R} (cb : crossbar R) (i : nat) : list R :=
  smul (sopp (nth i (data (v_bl_in cb)) szero)) (nth i (data (g_s_bl_in cb)) szero)
  :: repeat szero (n cb - 2)
  ++ [smul (sopp (nth i (data (v_bl_in cb)) szero)) (nth i (data (g_s_bl_out cb)) szero)].

Unset Implicit Arguments.

(** * Properties *)

(** ** The result monad *)

Lemma mapM_length {A B : Type} (f : A -> result B) (l : list A) (bs : list B) :
  mapM f l = Ok bs -> length bs = length l.
Proof.
  revert bs; induction l as [| a l IH]; simpl; intros bs H.
  - inversion H; reflexivity.
  - destruct (f a) as [b | e]; simpl in H; [| discriminate].
    destruct (mapM f l) as [bs' | e]; simpl in H; [| discriminate].
    inversion H; subst; simpl; f_equal; apply IH; reflexivity.
Qed.

Lemma mapM_ok {A B : Type} (f : A -> result B) (g : A -> B) (l : list A) :
  (forall a, In a l -> f a = Ok (g a)) -> mapM f l = Ok (map g l).
Proof.
  induction l as [| a l IH]; simpl; intros H; [reflexivity |].
  rewrite (H a (or_introl eq_refl)); simpl.
  rewrite IH by (intros b Hb; apply H; right; exact Hb).
  reflexivity.
Qed.

(** ** The solver path *)

Section SolverPath.

Context {R : Type} {SR : Scalar R} {DV : Devices R} {INV : Inverse R}.

Lemma make_C_returns_None (cb : crossbar R) (W : tensor R) (x : value R) :
  make_C cb W = Ok x -> x = VNone.
Proof.
  unfold make_C; destruct (make_C_block cb W); simpl; intros H.
  - inversion H; reflexivity.
  - discriminate H.
Qed.

Lemma assemble_never_returns (cb : crossbar R) (W v : tensor R) :
  exists e, assemble cb W v = Raise e.
Proof.
  unfold assemble.
  destruct (make_A cb W) as [A | e]; simpl; [| eauto].
  destruct (make_B cb W) as [B | e]; simpl; [| eauto].
  destruct (make_C cb W) as [C | e] eqn:EC; simpl; [| eauto].
  apply make_C_returns_None in EC; subst C.
  destruct (make_D cb W) as [D | e]; simpl; [| eauto].
  destruct (make_E cb v) as [E | e]; simpl; [| eauto].
  destruct (cat_values [VTensor A; VTensor B] 1) as [AB | e]; simpl; eauto.
Qed.

Lemma solve_v_never_returns (cb : crossbar R) (W v : tensor R) (c : cache R) :
  exists e, solve_v cb W v c = (Raise e, c).
Proof.
  unfold solve_v.
  destruct (assemble_never_returns cb W v) as [e He]; rewrite He; eauto.
Qed.

Lemma lineres_never_returns (cb : crossbar R) (v : tensor R) (iter : Z) (c : cache R) :
  exists e, lineres_memristive_vmm cb v iter c = (Raise e, c).
Proof.
  unfold lineres_memristive_vmm.
  destruct (solve_v_never_returns cb (fitted_w cb) v c) as [e He]; rewrite He; eauto.
Qed.

(** The statements after the loop subscript the solved vector with three
    indices; on the column [solve_v] is written to return this is refused. *)
Lemma readout_of_column (V W : tensor R) (k : nat) :
  shape V = [k; 1] -> readout V W = Raise IndexError.
Proof.
  intros HV; unfold readout, split_wl_bl, getitem; rewrite HV; simpl.
  destruct (wrap_index 0 k); reflexivity.
Qed.

End SolverPath.

(** ** Lists laid out in rows *)

Section Rows.

Context {A B : Type}.

Lemma flat_map_uniform_length (f : A -> list B) (c : nat) (l : list A) :
  (forall a, In a l -> length (f a) = c) -> length (flat_map f l) = length l * c.
Proof.
  induction l as [| a l IH]; simpl; intros H; [reflexivity |].
  rewrite length_app, (H a (or_introl eq_refl)), IH; [reflexivity |].
  intros b Hb; apply H; right; exact Hb.
Qed.

Lemma flat_map_uniform_nth (f : A -> list B) (c : nat) (l : list A) (d : B) (a0 : A) :
  (forall a, In a l -> length (f a) = c) ->
  forall i j, i < length l -> j < c ->
  nth (i * c + j) (flat_map f l) d = nth j (f (nth i l a0)) d.
Proof.
  induction l as [| a l IH]; simpl; intros H i j Hi Hj; [lia |].
  assert (Ha : length (f a) = c) by (apply H; left; reflexivity).
  destruct i as [| i]; simpl.
  - apply app_nth1; lia.
  - rewrite app_nth2 by lia.
    replace (c + i * c + j - length (f a)) with (i * c + j) by lia.
    apply IH; [intros b Hb; apply H; right; exact Hb | lia | exact Hj].
Qed.

Lemma flat_map_uniform_chunk (f : A -> list B) (c : nat) (l : list A) (a0 : A) :
  (forall a, In a l -> length (f a) = c) ->
  forall i, i < length l -> chunk c i (flat_map f l) = f (nth i l a0).
Proof.
  unfold chunk.
  induction l as [| a l IH]; simpl; intros H i Hi; [lia |].
  assert (Ha : length (f a) = c) by (apply H; left; reflexivity).
  destruct i as [| i]; simpl.
  - rewrite <- Ha, firstn_app, Nat.sub_diag, firstn_all; simpl; apply app_nil_r.
  - rewrite skipn_app, Ha.
    replace (c + i * c - c) with (i * c) by lia.
    rewrite skipn_all2 by lia; simpl.
    apply IH; [intros b Hb; apply H; right; exact Hb | lia].
Qed.

Lemma nth_map_seq (g : nat -> B) (len i : nat) (d : B) :
  i < len -> nth i (map g (seq 0 len)) d = g i.
Proof.
  intros Hi.
  rewrite (nth_indep _ d (g 0)) by (rewrite length_map, length_seq; exact Hi).
  rewrite map_nth, seq_nth by exact Hi; reflexivity.
Qed.

Lemma chunk_length (c i : nat) (xs : list B) :
  (i + 1) * c <= length xs -> length (chunk c i xs) = c.
Proof.
  intros H; unfold chunk; rewrite length_firstn, length_skipn; lia.
Qed.

Lemma chunk_nth (c i j : nat) (xs : list B) (d : B) :
  j < c -> nth j (chunk c i xs) d = nth (i * c + j) xs d.
Proof.
  intros Hj; unfold chunk.
  rewrite nth_firstn.
  destruct (j <? c) eqn:E; [| apply Nat.ltb_ge in E; lia].
  rewrite nth_skipn; reflexivity.
Qed.

End Rows.

Section TensorFacts.

Context {R : Type} {SR : Scalar R}.

Lemma mk2_length (rows cols : nat) (f : nat -> nat -> R) :
  length (data (mk2 rows cols f)) = rows * cols.
Proof.
  unfold mk2; simpl.
  rewrite (flat_map_uniform_length _ cols), length_seq; [reflexivity |].
  intros a _; rewrite length_map, length_seq; reflexivity.
Qed.

Lemma mk2_wf (rows cols : nat) (f : nat -> nat -> R) : wf (mk2 rows cols f).
Proof. unfold wf; rewrite mk2_length; simpl; lia. Qed.

Lemma mk2_nth (rows cols : nat) (f : nat -> nat -> R) (r c : nat) (d : R) :
  r < rows -> c < cols -> nth (r * cols + c) (data (mk2 rows cols f)) d = f r c.
Proof.
  intros Hr Hc; unfold mk2; simpl.
  rewrite (flat_map_uniform_nth _ cols _ d 0); try (rewrite ?length_seq; assumption).
  - rewrite seq_nth by exact Hr; simpl; apply nth_map_seq; exact Hc.
  - intros a _; rewrite length_map, length_seq; reflexivity.
Qed.

Lemma get2_mk2 (rows cols : nat) (f : nat -> nat -> R) (r c : nat) :
  r < rows -> c < cols -> get2 (mk2 rows cols f) r c = f r c.
Proof. intros Hr Hc; unfold get2; simpl; apply mk2_nth; assumption. Qed.

Lemma mk2_row (rows cols : nat) (f : nat -> nat -> R) (r : nat) :
  r < rows -> chunk cols r (data (mk2 rows cols f)) = map (f r) (seq 0 cols).
Proof.
  intros Hr; unfold mk2; simpl.
  rewrite (flat_map_uniform_chunk _ cols _ 0).
  - rewrite seq_nth by exact Hr; reflexivity.
  - intros a _; rewrite length_map, length_seq; reflexivity.
  - rewrite length_seq; exact Hr.
Qed.

Lemma mk1_length (len : nat) (f : nat -> R) : length (data (mk1 len f)) = len.
Proof. unfold mk1; simpl; rewrite length_map, length_seq; reflexivity. Qed.

End TensorFacts.

(** ** Construction *)

Section Construction.

Context {R : Type} {SR : Scalar R} {DV : Devices R}.

Lemma full_nat (d : nat) (x : R) : full [zn d] x = Ok (mkT [d] (repeat x d)).
Proof.
  unfold full, zn; simpl.
  destruct (0 <=? Z.of_nat d)%Z eqn:E; [| apply Z.leb_gt in E; lia].
  simpl; rewrite Nat2Z.id, Nat.mul_1_r; reflexivity.
Qed.

Lemma mapM_Forall {A B : Type} (f : A -> result B) (P : B -> Prop) (l : list A) (bs : list B) :
  (forall a b, f a = Ok b -> P b) -> mapM f l = Ok bs -> Forall P bs.
Proof.
  intros HP; revert bs; induction l as [| a l IH]; simpl; intros bs H.
  - inversion H; constructor.
  - destruct (f a) as [b | e] eqn:E; simpl in H; [| discriminate].
    destruct (mapM f l) as [bs' | e]; simpl in H; [| discriminate].
    inversion H; subst; constructor; [eapply HP; eassumption | apply IH; reflexivity].
Qed.

(** What a successful construction stores. *)
Lemma init_inv (mm : memristor_model) (mp : memristor_params R) (w : tensor R)
  (cp : crossbar_params) (cb : crossbar R) :
  init mm mp w cp = Ok cb ->
  shape w = [n cb; m cb] /\
  ideal_w cb = w /\
  mapM (fun i => mapM (fun j => initialize_memristor mm mp (get2 w i j)) (seq 0 (m cb)))
       (seq 0 (n cb)) = Ok (memristors cb) /\
  fitted_w cb = squeeze (tensor_of_rows (map (map (@g_linfit R)) (memristors cb))) /\
  g_wl cb = mkT [1] [srecip (r_wl cp)] /\
  g_bl cb = mkT [1] [srecip (r_bl cp)] /\
  g_s_wl_in cb = tdivs (mkT [m cb] (repeat sone (m cb))) (slit (r_in cp)) /\
  g_s_wl_out cb = tmuls (mkT [m cb] (repeat sone (m cb))) (slit 1e-15%Q) /\
  g_s_bl_in cb = tmuls (mkT [n cb] (repeat sone (n cb))) (slit 1e-15%Q) /\
  g_s_bl_out cb = tdivs (mkT [n cb] (repeat sone (n cb))) (slit (r_out cp)) /\
  v_bl_in cb = mkT [n cb] (repeat szero (n cb)) /\
  v_bl_out cb = mkT [n cb] (repeat szero (n cb)) /\
  v_wl_out cb = mkT [m cb] (repeat szero (m cb)).
Proof.
  unfold init; intros H.
  destruct (shape w) as [| d0 [| d1 [| d2 s]]] eqn:Hs.
  - discriminate H.
  - destruct (d0 =? 0); discriminate H.
  - destruct (mapM _ (seq 0 d0)) as [mems | e] eqn:Hm; simpl in H; [| discriminate].
    destruct (Qeq_bool (r_wl cp) 0); [discriminate |].
    destruct (Qeq_bool (r_bl cp) 0); [discriminate |].
    unfold ones, zeros in H; rewrite !full_nat in H; simpl in H.
    inversion H; subst cb; clear H; simpl.
    repeat split; assumption.
  - destruct mm; try discriminate H.
    destruct (d0 * d1 =? 0); discriminate H.
Qed.

Lemma vector_of_repeat (k : nat) (x : R) (f : R -> R) :
  vector_of k (tmap f (mkT [k] (repeat x k))).
Proof.
  split; simpl; [reflexivity | rewrite length_map, repeat_length; reflexivity].
Qed.

Lemma init_well_shaped (mm : memristor_model) (mp : memristor_params R) (w : tensor R)
  (cp : crossbar_params) (cb : crossbar R) :
  init mm mp w cp = Ok cb -> well_shaped cb.
Proof.
  intros H; apply init_inv in H.
  destruct H as (_ & _ & Hm & _ & H1 & H2 & H3 & H4 & H5 & H6 & H7 & H8 & H9).
  constructor.
  - apply mapM_length in Hm; rewrite length_seq in Hm; exact Hm.
  - eapply mapM_Forall; [| exact Hm].
    intros i r Hr; simpl in Hr; apply mapM_length in Hr; rewrite length_seq in Hr; exact Hr.
  - rewrite H1; split; reflexivity.
  - rewrite H2; split; reflexivity.
  - rewrite H3; apply vector_of_repeat.
  - rewrite H4; apply vector_of_repeat.
  - rewrite H5; apply vector_of_repeat.
  - rewrite H6; apply vector_of_repeat.
  - rewrite H7; split; simpl; [reflexivity | apply repeat_length].
  - rewrite H8; split; simpl; [reflexivity | apply repeat_length].
  - rewrite H9; split; simpl; [reflexivity | apply repeat_length].
Qed.

Lemma tensor_of_rows_shape (rows : list (list R)) (c : nat) :
  rows <> [] -> Forall (fun r => length r = c) rows ->
  shape (tensor_of_rows rows) = [length rows; c].
Proof.
  intros Hne Hall; destruct rows as [| r0 rows]; [contradiction |].
  inversion Hall; subst; reflexivity.
Qed.

Lemma fitted_shape (mm : memristor_model) (mp : memristor_params R) (w : tensor R)
  (cp : crossbar_params) (cb : crossbar R) :
  init mm mp w cp = Ok cb -> 1 <= n cb ->
  shape (fitted_w cb) = filter (fun d => negb (d =? 1)) [n cb; m cb].
Proof.
  intros H Hn.
  pose proof (init_well_shaped _ _ _ _ _ H) as WS.
  apply init_inv in H; destruct H as (_ & _ & _ & Hf & _).
  rewrite Hf; unfold squeeze; cbn [shape].
  rewrite (tensor_of_rows_shape _ (m cb)).
  - rewrite length_map, (ws_rows WS); reflexivity.
  - intros E; apply (f_equal (@length _)) in E.
    rewrite length_map, (ws_rows WS) in E; simpl in E; lia.
  - apply Forall_map; eapply Forall_impl; [| exact (ws_cols WS)].
    intros r Hr; simpl; rewrite length_map; exact Hr.
Qed.

End Construction.

(** The conductance of a line of one milliohm: Python takes the
    reciprocal in binary64 and torch rounds the quotient, which is 1000; a
    division in binary32 would give 999.99994. *)
Lemma line_conductance_of_a_milliohm :
  on_crossbar (init (DV := ohmic_devices) StaticMemristor room_f32 W22_f32
                 {| r_wl := 1e-3; r_bl := 1e-3; r_in := 1; r_out := 1 |}) (fun cb =>
    g_wl cb = mkT [1] [f32 1000] /\
    g_bl cb = mkT [1] [f32 1000] /\
    sdiv sone (f32 1e-3) = f32 (99999994 # 100000) /\
    sdiv sone (f32 1e-3) <> f32 1000).
Proof.
  vm_compute; split; [reflexivity |]; split; [reflexivity |]; split; [reflexivity |].
  intros H; discriminate H.
Qed.

(** ** Broadcasting of equal shapes *)

Section Broadcast.

Context {R : Type} {SR : Scalar R}.

Lemma bshape_rev_same (s : list nat) : bshape_rev s s = Some s.
Proof.
  induction s as [| d s IH]; simpl; [reflexivity |].
  rewrite IH, Nat.eqb_refl; reflexivity.
Qed.

Lemma broadcast_shape_same (s : list nat) : broadcast_shape s s = Some s.
Proof.
  unfold broadcast_shape; rewrite bshape_rev_same; simpl; rewrite rev_involutive; reflexivity.
Qed.

Lemma pad_shape_same (s : list nat) : pad_shape s s = s.
Proof. unfold pad_shape; rewrite Nat.sub_diag; reflexivity. Qed.

Lemma flat_map_shift {B : Type} (f : nat -> list B) (l : list nat) :
  flat_map f (map S l) = flat_map (fun o => f (S o)) l.
Proof. induction l as [| a l IH]; simpl; [reflexivity | rewrite IH; reflexivity]. Qed.

Lemma chunks_concat {A : Type} (c d : nat) (xs : list A) :
  length xs = d * c -> flat_map (fun o => chunk c o xs) (seq 0 d) = xs.
Proof.
  revert xs; induction d as [| d IH]; intros xs H.
  - destruct xs; [reflexivity | discriminate H].
  - cbn [seq flat_map].
    rewrite <- seq_shift, flat_map_shift.
    transitivity (firstn c xs ++ skipn c xs); [| apply firstn_skipn].
    f_equal.
    rewrite <- (IH (skipn c xs)) by (rewrite length_skipn; lia).
    apply flat_map_ext; intros o; unfold chunk.
    rewrite skipn_skipn; f_equal; f_equal; lia.
Qed.

Lemma flat_map_ext_seq {A : Type} (f g : nat -> list A) (d : nat) :
  (forall o, o < d -> f o = g o) -> flat_map f (seq 0 d) = flat_map g (seq 0 d).
Proof.
  intros H; rewrite !flat_map_concat_map; f_equal.
  apply map_ext_in; intros o Ho; apply in_seq in Ho; apply H; lia.
Qed.

Lemma expand_data_same (s : list nat) (xs : list R) :
  length xs = numel s -> expand_data s s xs = xs.
Proof.
  revert xs; induction s as [| d s IH]; intros xs H; simpl; [reflexivity |].
  rewrite Nat.eqb_refl.
  transitivity (flat_map (fun o => chunk (numel s) o xs) (seq 0 d));
    [| apply chunks_concat; exact H].
  apply flat_map_ext_seq; intros o Ho.
  apply IH, chunk_length; simpl in H; rewrite H; nia.
Qed.

Lemma binop_same_shape (f : R -> R -> R) (a b : tensor R) :
  shape a = shape b -> wf a -> wf b ->
  binop f a b = Ok (mkT (shape a) (zip_with f (data a) (data b))).
Proof.
  unfold binop, wf; intros Hs Ha Hb.
  rewrite <- Hs, broadcast_shape_same, pad_shape_same.
  rewrite !expand_data_same; [reflexivity | rewrite Hs; exact Hb | exact Ha].
Qed.

Lemma zip_with_map {A B C D : Type} (F : B -> C -> D) (f : A -> B) (g : A -> C) (l : list A) :
  zip_with F (map f l) (map g l) = map (fun a => F (f a) (g a)) l.
Proof. induction l as [| a l IH]; simpl; [reflexivity | rewrite IH; reflexivity]. Qed.

Lemma zip_with_app {A B C : Type} (F : A -> B -> C) (xs xs' : list A) (ys ys' : list B) :
  length xs = length ys ->
  zip_with F (xs ++ xs') (ys ++ ys') = zip_with F xs ys ++ zip_with F xs' ys'.
Proof.
  revert ys; induction xs as [| x xs IH]; intros [| y ys] H; simpl in *; try discriminate.
  - reflexivity.
  - rewrite IH by lia; reflexivity.
Qed.

Lemma zip_with_length {A B C : Type} (F : A -> B -> C) (xs : list A) (ys : list B) :
  length (zip_with F xs ys) = Nat.min (length xs) (length ys).
Proof.
  revert ys; induction xs as [| x xs IH]; intros [| y ys]; simpl; try reflexivity.
  rewrite IH; reflexivity.
Qed.

Lemma zip_with_nth {A B C : Type} (F : A -> B -> C) (xs : list A) (ys : list B)
  (i : nat) (a : A) (b : B) (c : C) :
  i < length xs -> i < length ys ->
  nth i (zip_with F xs ys) c = F (nth i xs a) (nth i ys b).
Proof.
  revert ys i; induction xs as [| x xs IH]; intros [| y ys] [| i] Hx Hy;
    simpl in *; try lia; [reflexivity | apply IH; lia].
Qed.

Lemma zip_with_mk2 (F : R -> R -> R) (rows cols : nat) (f g : nat -> nat -> R) :
  zip_with F (data (mk2 rows cols f)) (data (mk2 rows cols g))
  = data (mk2 rows cols (fun i j => F (f i j) (g i j))).
Proof.
  unfold mk2; simpl.
  induction (seq 0 rows) as [| r l IH]; simpl; [reflexivity |].
  rewrite zip_with_app by (rewrite !length_map; reflexivity).
  rewrite zip_with_map, IH; reflexivity.
Qed.

End Broadcast.

(** ** Linearity of [torch.matmul] over exact scalars *)

Section Linearity.

Context {R : Type} {SR : Scalar R}.

Hypothesis Rth : ring_theory szero sone sadd smul ssub sopp (@eq R).

Add Ring scalar_ring : Rth.

Lemma fold_left_sadd_acc (l : list R) (a : R) :
  fold_left sadd l a = sadd a (fold_left sadd l szero).
Proof.
  revert a; induction l as [| x l IH]; intros a; simpl; [ring |].
  rewrite (IH (sadd a x)), (IH (sadd szero x)); ring.
Qed.

Lemma dot_cons (x y : R) (xs ys : list R) :
  dot (x :: xs) (y :: ys) = sadd (smul x y) (dot xs ys).
Proof. unfold dot; simpl; rewrite fold_left_sadd_acc; ring. Qed.

Lemma dot_scale (xs ys : list R) (k : R) :
  dot xs (map (fun a => smul a k) ys) = smul (dot xs ys) k.
Proof.
  revert ys; induction xs as [| x xs IH]; intros [| y ys]; cbn [map];
    try (unfold dot; simpl; ring).
  rewrite !dot_cons, IH; ring.
Qed.

Lemma dot_add (xs ys zs : list R) :
  length ys = length zs ->
  dot xs (zip_with sadd ys zs) = sadd (dot xs ys) (dot xs zs).
Proof.
  revert ys zs; induction xs as [| x xs IH]; intros [| y ys] [| z zs] H;
    simpl in H; try discriminate; cbn [zip_with];
    try (unfold dot; simpl; ring).
  rewrite !dot_cons, IH by lia; ring.
Qed.

Lemma nth_scale (xs : list R) (k : R) (i : nat) :
  nth i (map (fun a => smul a k) xs) szero = smul (nth i xs szero) k.
Proof.
  replace szero with (smul szero k) at 1 by ring.
  apply (map_nth (fun a => smul a k)).
Qed.

Lemma nth_add (xs ys : list R) (i : nat) :
  length xs = length ys ->
  nth i (zip_with sadd xs ys) szero = sadd (nth i xs szero) (nth i ys szero).
Proof.
  intros H; destruct (Nat.lt_ge_cases i (length xs)) as [Hi | Hi].
  - apply zip_with_nth; lia.
  - rewrite !nth_overflow; try lia; [ring |].
    rewrite zip_with_length; lia.
Qed.

Lemma col_scale (b : tensor R) (k : R) (j : nat) :
  col (tmuls b k) j = map (fun a => smul a k) (col b j).
Proof.
  unfold col; simpl; rewrite map_map; apply map_ext; intros r.
  unfold get2; simpl; apply nth_scale.
Qed.

Lemma col_add (v u : tensor R) (j : nat) :
  shape v = shape u -> length (data v) = length (data u) ->
  col (mkT (shape v) (zip_with sadd (data v) (data u))) j
  = zip_with sadd (col v j) (col u j).
Proof.
  intros Hs Hl; unfold col; simpl; rewrite <- Hs, zip_with_map.
  apply map_ext; intros r; unfold get2; simpl; rewrite <- Hs; apply nth_add; exact Hl.
Qed.

Lemma col_length (b : tensor R) (j : nat) : length (col b j) = nth 0 (shape b) 0.
Proof. unfold col; rewrite length_map, length_seq; reflexivity. Qed.

Lemma matmul_scale (a b : tensor R) (k : R) :
  matmul a (tmuls b k) = (r <- matmul a b ;; Ok (tmuls r k)).
Proof.
  unfold matmul; cbn [tmuls tmap shape data].
  destruct (shape a) as [| r [| c [| ? ?]]]; destruct (shape b) as [| r' [| c' [| ? ?]]];
    try reflexivity.
  - destruct (r =? r'); [| reflexivity]; simpl.
    rewrite dot_scale; reflexivity.
  - destruct (r =? r'); [| reflexivity]; simpl.
    unfold mk1, tmuls, tmap; simpl; rewrite map_map; do 2 f_equal.
    apply map_ext; intros j; rewrite <- dot_scale; f_equal; apply col_scale.
  - destruct (c =? r'); [| reflexivity]; simpl.
    unfold mk1, tmuls, tmap; simpl; rewrite map_map; do 2 f_equal.
    apply map_ext; intros i; apply dot_scale.
  - destruct (c =? r'); [| reflexivity]; simpl.
    unfold mk2, tmuls, tmap; simpl; do 2 f_equal.
    rewrite !flat_map_concat_map, concat_map, map_map; f_equal.
    apply map_ext; intros i; rewrite map_map; apply map_ext; intros j.
    rewrite <- dot_scale; f_equal; apply col_scale.
Qed.

Lemma mk1_wf (len : nat) (f : nat -> R) : wf (mk1 len f).
Proof. unfold wf; rewrite mk1_length; simpl; lia. Qed.

Lemma matmul_add (a v u : tensor R) :
  shape v = shape u -> wf v -> wf u ->
  matmul a (mkT (shape v) (zip_with sadd (data v) (data u)))
  = (x <- matmul a v ;; y <- matmul a u ;; tadd x y).
Proof.
  intros Hs Hv Hu.
  assert (Hl : length (data v) = length (data u))
    by (unfold wf in *; rewrite Hv, Hu, Hs; reflexivity).
  unfold matmul; cbn [shape data]; rewrite <- Hs.
  destruct (shape a) as [| r [| c [| ? ?]]]; destruct (shape v) as [| r' [| c' [| ? ?]]] eqn:Hsv;
    try reflexivity.
  - destruct (r =? r'); [| reflexivity]; simpl.
    rewrite dot_add by exact Hl; reflexivity.
  - destruct (r =? r'); [| reflexivity]; simpl.
    unfold tadd; rewrite binop_same_shape by (reflexivity || apply mk1_wf).
    simpl; rewrite zip_with_map; unfold mk1; do 2 f_equal.
    apply map_ext; intros j.
    rewrite <- dot_add by (rewrite !col_length, Hsv, <- Hs; reflexivity).
    f_equal; rewrite <- Hsv; apply col_add; [congruence | exact Hl].
  - destruct (c =? r'); [| reflexivity]; simpl.
    unfold tadd; rewrite binop_same_shape by (reflexivity || apply mk1_wf).
    simpl; rewrite zip_with_map; unfold mk1; do 2 f_equal.
    apply map_ext; intros i; apply dot_add; exact Hl.
  - destruct (c =? r'); [| reflexivity]; simpl.
    unfold tadd; rewrite binop_same_shape by (reflexivity || apply mk2_wf).
    rewrite zip_with_mk2; unfold mk2; simpl; do 2 f_equal.
    apply flat_map_ext; intros i; apply map_ext; intros j.
    rewrite <- dot_add by (rewrite !col_length, Hsv, <- Hs; reflexivity).
    f_equal; rewrite <- Hsv; apply col_add; [congruence | exact Hl].
Qed.

End Linearity.

Section DirectProduct.

Context {R : Type} {SR : Scalar R}.

Lemma zip_with_seq {A B C : Type} (F : A -> B -> C) (a : A) (b : B) (xs : list A) (ys : list B) :
  length xs = length ys ->
  zip_with F xs ys = map (fun j => F (nth j xs a) (nth j ys b)) (seq 0 (length xs)).
Proof.
  revert ys; induction xs as [| x xs IH]; intros [| y ys] H; simpl in *; try discriminate.
  - reflexivity.
  - rewrite <- seq_shift, map_map; f_equal; apply IH; lia.
Qed.

(** The product of a well-formed [rows x cols] matrix with a vector of
    length [cols], entry by entry. *)
Lemma matmul_matrix_vector (W v : tensor R) (rows cols : nat) :
  shape W = [rows; cols] -> wf W -> shape v = [cols] -> wf v ->
  matmul W v
  = Ok (mk1 rows (fun i =>
          fold_left sadd
            (map (fun j => smul (get2 W i j) (get1 v j)) (seq 0 cols)) szero)).
Proof.
  unfold wf; intros HW HWl Hv Hvl; rewrite HW in HWl; rewrite Hv in Hvl; simpl in HWl, Hvl.
  unfold matmul; rewrite HW, Hv, Nat.eqb_refl.
  unfold mk1; do 2 f_equal.
  apply map_ext_in; intros i Hi; apply in_seq in Hi.
  unfold dot, row; rewrite HW; cbn [nth].
  assert (Hc : length (chunk cols i (data W)) = cols) by (apply chunk_length; nia).
  rewrite (zip_with_seq smul szero szero) by lia.
  rewrite Hc; f_equal; apply map_ext_in; intros j Hj; apply in_seq in Hj.
  unfold get2, get1; rewrite HW; cbn [nth]; rewrite chunk_nth by lia; reflexivity.
Qed.

End DirectProduct.

(** ** The ideal and the fitted-linear multiply *)

(** C8 (as amended).  On a length-[m] input the Ideal multiply is the
    direct product of the ideal matrix with the input, and the
    Fitted-linear multiply that of the fitted matrix where it kept its
    two dimensions: entry [i] is the sum of the products
    [W[i,j] * v[j]], accumulated from zero in the order of [j], in the
    arithmetic of the tensor entries, whatever that arithmetic is.  Where
    that arithmetic obeys the ring laws the two multiplies are linear in
    their input: [multiply (v * k)] is [multiply v * k] and
    [multiply (v + u)] is [multiply v + multiply u]. *)
Theorem vmm_direct_product {R : Type} {SR : Scalar R} (cb : crossbar R) (v : tensor R) :
  shape v = [m cb] -> wf v ->
  (shape (ideal_w cb) = [n cb; m cb] -> wf (ideal_w cb) ->
   ideal_vmm cb v
   = Ok (mk1 (n cb) (fun i =>
           fold_left sadd
             (map (fun j => smul (get2 (ideal_w cb) i j) (get1 v j)) (seq 0 (m cb)))
             szero))) /\
  (shape (fitted_w cb) = [n cb; m cb] -> wf (fitted_w cb) ->
   naive_linear_memristive_vmm cb v
   = Ok (mk1 (n cb) (fun i =>
           fold_left sadd
             (map (fun j => smul (get2 (fitted_w cb) i j) (get1 v j)) (seq 0 (m cb)))
             szero))) /\
  (ring_theory szero sone sadd smul ssub sopp (@eq R) ->
   forall (u : tensor R) (k : R), shape u = [m cb] -> wf u ->
     (ideal_vmm cb (tmuls v k) = (r <- ideal_vmm cb v ;; Ok (tmuls r k)) /\
      naive_linear_memristive_vmm cb (tmuls v k)
      = (r <- naive_linear_memristive_vmm cb v ;; Ok (tmuls r k))) /\
     exists s, tadd v u = Ok s /\
       ideal_vmm cb s = (x <- ideal_vmm cb v ;; y <- ideal_vmm cb u ;; tadd x y) /\
       naive_linear_memristive_vmm cb s
       = (x <- naive_linear_memristive_vmm cb v ;;
          y <- naive_linear_memristive_vmm cb u ;; tadd x y)).
Proof.
  intros Hv Hwf; unfold ideal_vmm, naive_linear_memristive_vmm.
  split; [| split].
  - intros HW HWl; apply matmul_matrix_vector; assumption.
  - intros HW HWl; apply matmul_matrix_vector; assumption.
  - intros Rth u k Hu Huf.
    assert (Hs : shape v = shape u) by congruence.
    split.
    + split; apply matmul_scale; exact Rth.
    + exists (mkT (shape v) (zip_with sadd (data v) (data u))).
      split; [apply binop_same_shape; assumption |].
      split; apply matmul_add; assumption.
Qed.

Lemma vmm_direct_product_witness :
  on_crossbar (crossbar_f32 W22_f32) (fun cb =>
    let v := mkT [2] [f32 0.2; f32 0.1] in
    (shape v = [m cb] /\ wf v /\ shape (ideal_w cb) = [n cb; m cb] /\ wf (ideal_w cb)) /\
    ideal_vmm cb v
    = Ok (mkT [2]
            [sadd (sadd szero (smul (f32 1e-4) (f32 0.2))) (smul (f32 2e-4) (f32 0.1));
             sadd (sadd szero (smul (f32 5e-5) (f32 0.2))) (smul (f32 1e-4) (f32 0.1))])) /\
  on_crossbar crossbar22 (fun cb =>
    let v := mkT [2] [5; 7]%Z in
    let u := mkT [2] [1; -2]%Z in
    (shape v = [m cb] /\ wf v /\ shape u = [m cb] /\ wf u /\
     ring_theory 0%Z 1%Z Z.add Z.mul Z.sub Z.opp (@eq Z)) /\
    ideal_vmm cb (tmuls v 3%Z) = (r <- ideal_vmm cb v ;; Ok (tmuls r 3%Z)) /\
    ideal_vmm cb (tmuls v 3%Z) = Ok (mkT [2] [57; 129]%Z) /\
    exists s, tadd v u = Ok s /\
      ideal_vmm cb s = (x <- ideal_vmm cb v ;; y <- ideal_vmm cb u ;; tadd x y) /\
      ideal_vmm cb s = Ok (mkT [2] [16; 38]%Z)).
Proof.
  split.
  - unfold on_crossbar.
    destruct (crossbar_f32 W22_f32) as [cb | e] eqn:E; [| vm_compute in E; discriminate E].
    unfold crossbar_f32 in E.
    pose proof (init_inv (DV := ohmic_devices) _ _ _ _ _ E) as (Hs & Hw & _).
    assert (Hn : n cb = 2) by (simpl in Hs; congruence).
    assert (Hm : m cb = 2) by (simpl in Hs; congruence).
    assert (Hv : shape (mkT [2] [f32 0.2; f32 0.1]) = [m cb]) by (rewrite Hm; reflexivity).
    assert (Hi : shape (ideal_w cb) = [n cb; m cb]) by (rewrite Hw; exact Hs).
    assert (Hf : wf (ideal_w cb)) by (rewrite Hw; reflexivity).
    cbv zeta; split; [split; [exact Hv |]; split; [reflexivity |]; split; assumption |].
    destruct (vmm_direct_product cb (mkT [2] [f32 0.2; f32 0.1]) Hv eq_refl) as (Hd & _ & _).
    rewrite (Hd Hi Hf), Hw, Hn, Hm; reflexivity.
  - unfold on_crossbar.
    destruct crossbar22 as [cb | e] eqn:E; [| vm_compute in E; discriminate E].
    pose proof (init_inv (DV := ohmic_devices) _ _ _ _ _ E) as (Hs & Hw & _).
    assert (Hm : m cb = 2) by (simpl in Hs; congruence).
    assert (Hv : shape (mkT [2] [5; 7]%Z) = [m cb]) by (rewrite Hm; reflexivity).
    assert (Hu : shape (mkT [2] [1; -2]%Z) = [m cb]) by (rewrite Hm; reflexivity).
    destruct (vmm_direct_product (SR := Z_scalar) cb (mkT [2] [5; 7]%Z) Hv eq_refl)
      as (_ & _ & Hlin).
    destruct (Hlin Zth (mkT [2] [1; -2]%Z) 3%Z Hu eq_refl) as [[Hk _] [s [Hsum [Ha _]]]].
    cbv zeta; split; [split; [exact Hv |]; split; [reflexivity |]; split; [exact Hu |];
                      split; [reflexivity | exact Zth] |].
    split; [exact Hk |].
    split; [unfold ideal_vmm; rewrite Hw; reflexivity |].
    exists s; split; [exact Hsum |]; split; [exact Ha |].
    vm_compute in Hsum; inversion Hsum; subst s.
    unfold ideal_vmm; rewrite Hw; reflexivity.
Defined.

(** C8, as first stated, fails in the arithmetic of the tensors: on the
    [2 x 1] ideal matrix with entries 1e-4 and 2e-4 in binary32, the Ideal
    multiply of the input [0.1] scaled by 3 differs in its last bit from
    the Ideal multiply of [0.1], scaled by 3; and the Ideal multiply of
    the sum of the inputs [0.1] and [0.2] differs from the sum of their
    Ideal multiplies. *)
Lemma scaling_inexact_in_binary32 :
  on_crossbar (crossbar_f32 (mkT [2; 1] [f32 1e-4; f32 2e-4])) (fun cb =>
    let v := mkT [1] [f32 0.1] in
    let u := mkT [1] [f32 0.2] in
    let s := mkT [1] [sadd (f32 0.1) (f32 0.2)] in
    (ideal_vmm cb (tmuls v (f32 3))
     = Ok (mkT [2] [S754_finite false 16492675 (-39); S754_finite false 16492675 (-38)]) /\
     (r <- ideal_vmm cb v ;; Ok (tmuls r (f32 3)))
     = Ok (mkT [2] [S754_finite false 16492674 (-39); S754_finite false 16492674 (-38)]) /\
     ideal_vmm cb (tmuls v (f32 3)) <> (r <- ideal_vmm cb v ;; Ok (tmuls r (f32 3)))) /\
    tadd v u = Ok s /\
    ideal_vmm cb s <> (x <- ideal_vmm cb v ;; y <- ideal_vmm cb u ;; tadd x y)).
Proof.
  vm_compute; split; [| split].
  - split; [reflexivity |]; split; [reflexivity |].
    intros H; discriminate H.
  - reflexivity.
  - intros H; discriminate H.
Qed.

(** ** Squeezing of the fitted matrix *)

(** C10 (as amended).  A crossbar constructed with a single row and at
    least two columns stores its fitted conductances as a vector of length
    [m], and the Fitted-linear multiply of a length-[m] input then returns
    a zero-dimensional scalar; a crossbar constructed with a single column
    and at least two rows stores them as a vector of length [n]; with at
    least two rows and two columns the matrix keeps its two dimensions and
    the multiply returns a vector of length [n]. *)
Theorem fitted_w_squeezed {R : Type} {SR : Scalar R} {DV : Devices R}
  (mm : memristor_model) (mp : memristor_params R) (w : tensor R)
  (cp : crossbar_params) (cb : crossbar R) :
  init mm mp w cp = Ok cb ->
  (n cb = 1 -> 2 <= m cb ->
   shape (fitted_w cb) = [m cb] /\
   forall v, shape v = [m cb] ->
     exists x, naive_linear_memristive_vmm cb v = Ok (mkT [] [x])) /\
  (m cb = 1 -> 2 <= n cb -> shape (fitted_w cb) = [n cb]) /\
  (2 <= n cb -> 2 <= m cb ->
   shape (fitted_w cb) = [n cb; m cb] /\
   forall v, shape v = [m cb] ->
     has_shape (naive_linear_memristive_vmm cb v) [n cb]).
Proof.
  intros H; split; [| split].
  - intros Hn Hm.
    assert (Hf : shape (fitted_w cb) = [m cb]).
    { rewrite (fitted_shape _ _ _ _ _ H) by lia; rewrite Hn; simpl.
      destruct (m cb =? 1) eqn:E; [apply Nat.eqb_eq in E; lia | reflexivity]. }
    split; [exact Hf |].
    intros v Hv; unfold naive_linear_memristive_vmm, matmul.
    rewrite Hf, Hv, Nat.eqb_refl; eauto.
  - intros Hm Hn.
    rewrite (fitted_shape _ _ _ _ _ H) by lia; rewrite Hm; simpl.
    destruct (n cb =? 1) eqn:E; [apply Nat.eqb_eq in E; lia | reflexivity].
  - intros Hn Hm.
    assert (Hf : shape (fitted_w cb) = [n cb; m cb]).
    { rewrite (fitted_shape _ _ _ _ _ H) by lia; simpl.
      destruct (n cb =? 1) eqn:E; [apply Nat.eqb_eq in E; lia |].
      destruct (m cb =? 1) eqn:E'; [apply Nat.eqb_eq in E'; lia | reflexivity]. }
    split; [exact Hf |].
    intros v Hv; unfold naive_linear_memristive_vmm, matmul.
    rewrite Hf, Hv, Nat.eqb_refl; eexists; split; reflexivity.
Qed.

Lemma fitted_w_squeezed_witness :
  on_crossbar (crossbar_f32 (mkT [1; 3] [f32 1e-4; f32 2e-4; f32 5e-5])) (fun cb =>
    n cb = 1 /\ 2 <= m cb /\ shape (fitted_w cb) = [m cb] /\
    exists x, naive_linear_memristive_vmm cb (mkT [3] [f32 0.2; f32 0.1; f32 (-0.3)])
              = Ok (mkT [] [x])).
Proof.
  unfold on_crossbar.
  destruct (crossbar_f32 _) as [cb | e] eqn:E; [| vm_compute in E; discriminate E].
  unfold crossbar_f32 in E.
  pose proof (init_inv (DV := ohmic_devices) _ _ _ _ _ E) as [Hs _]; simpl in Hs.
  assert (Hn : n cb = 1) by congruence.
  assert (Hm : m cb = 3) by congruence.
  destruct (fitted_w_squeezed (DV := ohmic_devices) _ _ _ _ _ E) as [Hrow _].
  destruct (Hrow Hn ltac:(lia)) as [Hf Hv].
  repeat split; [exact Hn | lia | exact Hf |].
  apply Hv; rewrite Hm; reflexivity.
Defined.

(** C10, as first stated, fails on a single column: the [2 x 1] fitted
    matrix is squeezed to a vector of length 2, and the Fitted-linear
    multiply of a length-1 input raises instead of returning a scalar;
    on a [1 x 1] crossbar the matrix is squeezed to zero dimensions and
    the multiply raises as well. *)
Lemma single_column_multiply_raises :
  on_crossbar (crossbar_f32 (mkT [2; 1] [f32 1e-4; f32 2e-4])) (fun cb =>
    n cb = 2 /\ m cb = 1 /\ shape (fitted_w cb) = [2] /\
    naive_linear_memristive_vmm cb (mkT [1] [f32 0.2]) = Raise (RuntimeError SizeMismatch))
  /\
  on_crossbar (crossbar_f32 (mkT [1; 1] [f32 1e-4])) (fun cb =>
    n cb = 1 /\ m cb = 1 /\ shape (fitted_w cb) = [] /\
    naive_linear_memristive_vmm cb (mkT [1] [f32 0.2]) = Raise (RuntimeError RankNotSupported)).
Proof. vm_compute; repeat split. Qed.

(** ** The full multiply *)

(** C2.  With [iter = 0] the full multiply returns no output: its one
    solve, on the fitted matrix, raises (the cache is left as it was);
    and the statements after the loop raise [IndexError] on any column
    vector, the shape [solve_v] is written to return. *)
Theorem lineres_iter0_raises {R : Type} {SR : Scalar R} {DV : Devices R} {INV : Inverse R}
  (cb : crossbar R) (v : tensor R) (c : cache R) :
  (exists e, solve_v cb (fitted_w cb) v c = (Raise e, c) /\
             lineres_memristive_vmm cb v 0 c = (Raise e, c)) /\
  (forall (k : nat) (xs : list R) (W : tensor R),
     readout (mkT [k; 1] xs) W = Raise IndexError).
Proof.
  split.
  - destruct (solve_v_never_returns cb (fitted_w cb) v c) as [e He].
    exists e; split; [exact He |].
    unfold lineres_memristive_vmm; rewrite He; reflexivity.
  - intros k xs W; apply (readout_of_column _ _ k); reflexivity.
Qed.

(** C5.  With [iter >= 1] the full multiply performs no round at all and
    returns no output: the solve before the loop raises, and that
    exception is the result of the call. *)
Theorem lineres_rounds_never_run {R : Type} {SR : Scalar R} {DV : Devices R}
  {INV : Inverse R} (cb : crossbar R) (v : tensor R) (iter : positive) (c : cache R) :
  exists e, solve_v cb (fitted_w cb) v c = (Raise e, c) /\
            lineres_memristive_vmm cb v (Zpos iter) c = (Raise e, c).
Proof.
  destruct (solve_v_never_returns cb (fitted_w cb) v c) as [e He].
  exists e; split; [exact He |].
  unfold lineres_memristive_vmm; rewrite He; reflexivity.
Qed.

(** ** Subscripts, transposition and diagonals *)

Section Primitives.

Context {R : Type} {SR : Scalar R}.

Lemma wrap_index_nat (i d : nat) : i < d -> wrap_index (zn i) d = Some i.
Proof.
  intros H; unfold wrap_index, zn.
  destruct (Z.of_nat i <? 0)%Z eqn:E; [apply Z.ltb_lt in E; lia |].
  destruct (0 <=? Z.of_nat i)%Z eqn:E1; [| apply Z.leb_gt in E1; lia].
  destruct (Z.of_nat i <? Z.of_nat d)%Z eqn:E2; [| apply Z.ltb_ge in E2; lia].
  simpl; rewrite Nat2Z.id; reflexivity.
Qed.

Lemma wrap_index_over (i d : nat) : d <= i -> wrap_index (zn i) d = None.
Proof.
  intros H; unfold wrap_index, zn.
  destruct (Z.of_nat i <? 0)%Z eqn:E; [apply Z.ltb_lt in E; lia |].
  destruct (Z.of_nat i <? Z.of_nat d)%Z eqn:E2; [apply Z.ltb_lt in E2; lia |].
  rewrite andb_false_r; reflexivity.
Qed.

Lemma chunk_one {A : Type} (j : nat) (xs : list A) (d : A) :
  j < length xs -> chunk 1 j xs = [nth j xs d].
Proof.
  unfold chunk; rewrite Nat.mul_1_r; revert j.
  induction xs as [| x xs IH]; intros [| j] H; simpl in *; try lia.
  - reflexivity.
  - apply IH; lia.
Qed.

Lemma mk2_ext (rows cols : nat) (f g : nat -> nat -> R) :
  (forall r c, r < rows -> c < cols -> f r c = g r c) -> mk2 rows cols f = mk2 rows cols g.
Proof.
  intros H; unfold mk2; f_equal.
  apply flat_map_ext_seq; intros r Hr.
  apply map_ext_in; intros c Hc; apply in_seq in Hc; apply H; lia.
Qed.

Lemma tmap_mk2 (h : R -> R) (rows cols : nat) (f : nat -> nat -> R) :
  tmap h (mk2 rows cols f) = mk2 rows cols (fun r c => h (f r c)).
Proof.
  unfold tmap, mk2; simpl; f_equal.
  rewrite !flat_map_concat_map, concat_map, map_map; f_equal.
  apply map_ext; intros r; apply map_map.
Qed.

Lemma getitem_vector (x : tensor R) (len i : nat) :
  shape x = [len] -> length (data x) = len -> i < len ->
  getitem x [Idx (zn i)] = Ok (mkT [] [nth i (data x) szero]).
Proof.
  intros Hs Hl Hi; unfold getitem; rewrite Hs; simpl.
  rewrite (wrap_index_nat i len Hi); simpl.
  rewrite (chunk_one i (data x) szero) by lia; reflexivity.
Qed.

Lemma getitem_vector_over (x : tensor R) (len i : nat) :
  shape x = [len] -> len <= i -> getitem x [Idx (zn i)] = Raise IndexError.
Proof.
  intros Hs Hi; unfold getitem; rewrite Hs; simpl.
  rewrite (wrap_index_over i len Hi); reflexivity.
Qed.

Lemma getitem_row (x : tensor R) (rows cols i : nat) :
  shape x = [rows; cols] -> wf x -> i < rows ->
  getitem x [Idx (zn i); SliceAll] = Ok (mkT [cols] (chunk cols i (data x))).
Proof.
  unfold wf; intros Hs Hl Hi; rewrite Hs in Hl; simpl in Hl.
  unfold getitem; rewrite Hs; simpl.
  rewrite (wrap_index_nat i rows Hi); simpl; rewrite Nat.mul_1_r.
  do 2 f_equal; apply chunks_concat.
  rewrite chunk_length; nia.
Qed.

Lemma getitem_column (x : tensor R) (rows cols j : nat) :
  shape x = [rows; cols] -> wf x -> j < cols ->
  getitem x [SliceAll; Idx (zn j)] = Ok (mkT [rows] (map (fun o => get2 x o j) (seq 0 rows))).
Proof.
  unfold wf; intros Hs Hl Hj; rewrite Hs in Hl; simpl in Hl.
  unfold getitem; rewrite Hs; simpl.
  rewrite (wrap_index_nat j cols Hj); simpl; rewrite Nat.mul_1_r.
  do 2 f_equal.
  rewrite flat_map_concat_map.
  transitivity (concat (map (fun o => [get2 x o j]) (seq 0 rows))).
  - f_equal; apply map_ext_in; intros o Ho; apply in_seq in Ho.
    rewrite (chunk_one j _ szero) by (rewrite chunk_length; nia).
    rewrite chunk_nth by exact Hj.
    unfold get2; rewrite Hs; reflexivity.
  - induction (seq 0 rows) as [| o l IH]; simpl; [reflexivity | rewrite IH; reflexivity].
Qed.

Lemma getitem_entry (x : tensor R) (rows cols i j : nat) :
  shape x = [rows; cols] -> wf x -> i < rows -> j < cols ->
  getitem x [Idx (zn i); Idx (zn j)] = Ok (mkT [] [get2 x i j]).
Proof.
  unfold wf; intros Hs Hl Hi Hj; rewrite Hs in Hl; simpl in Hl.
  unfold getitem; rewrite Hs; simpl.
  rewrite (wrap_index_nat i rows Hi), (wrap_index_nat j cols Hj); simpl.
  rewrite Nat.mul_1_r.
  rewrite (chunk_one j _ szero) by (rewrite chunk_length; nia).
  rewrite chunk_nth by exact Hj.
  unfold get2; rewrite Hs; reflexivity.
Qed.

Lemma t_matrix (x : tensor R) (rows cols : nat) :
  shape x = [rows; cols] -> t x = Ok (mk2 cols rows (fun i j => get2 x j i)).
Proof. intros Hs; unfold t; rewrite Hs; reflexivity. Qed.

Lemma diag_main (xs : list R) (len : nat) :
  diag (mkT [len] xs) 0
  = Ok (mk2 len len (fun r c => if c =? r then nth r xs szero else szero)).
Proof.
  unfold diag; simpl; rewrite Nat.add_0_r; f_equal.
  apply mk2_ext; intros r c _ _; rewrite Z.add_0_r.
  destruct (c =? r) eqn:E.
  - apply Nat.eqb_eq in E; subst; rewrite Z.eqb_refl; reflexivity.
  - apply Nat.eqb_neq in E.
    destruct (Z.of_nat c =? Z.of_nat r)%Z eqn:E'; [apply Z.eqb_eq in E'; lia | reflexivity].
Qed.

Lemma zeros_matrix (a b : nat) :
  zeros [zn a; zn b] = Ok (mkT [a; b] (repeat szero (a * b))).
Proof.
  unfold zeros, full, zn; simpl.
  destruct (0 <=? Z.of_nat a)%Z eqn:E; [| apply Z.leb_gt in E; lia].
  destruct (0 <=? Z.of_nat b)%Z eqn:E'; [| apply Z.leb_gt in E'; lia].
  simpl; rewrite !Nat2Z.id, Nat.mul_1_r; reflexivity.
Qed.

Lemma get2_zeros (a b r c : nat) : get2 (mkT [a; b] (repeat szero (a * b))) r c = szero.
Proof. unfold get2; simpl; apply nth_repeat. Qed.

End Primitives.

(** ** Block assembly: [block_diag], [index_put] and [cat] *)

Section Blocks.

Context {R : Type} {SR : Scalar R}.

Lemma block_entry_uniform (B : nat -> tensor R) (r c : nat) :
  forall k a i j q, i < k -> j < r ->
  block_entry (map (fun x => (r, c, B x)) (seq a k)) (i * r + j) q
  = if ((i * c <=? q) && (q <? (i + 1) * c))%bool
    then get2 (B (a + i)) j (q - i * c)
    else szero.
Proof.
  induction k as [| k IH]; intros a i j q Hi Hj; [lia |].
  cbn [seq map block_entry].
  destruct i as [| i].
  - simpl; destruct (j <? r) eqn:E; [| apply Nat.ltb_ge in E; lia].
    rewrite Nat.add_0_r, Nat.sub_0_r, Nat.add_0_r; reflexivity.
  - destruct (S i * r + j <? r) eqn:E; [apply Nat.ltb_lt in E; lia |].
    destruct (q <? c) eqn:Eq.
    + apply Nat.ltb_lt in Eq.
      destruct (S i * c <=? q) eqn:E1; [apply Nat.leb_le in E1; lia | reflexivity].
    + apply Nat.ltb_ge in Eq.
      replace (S i * r + j - r) with (i * r + j) by lia.
      rewrite IH by lia.
      replace (S a + i) with (a + S i) by lia.
      replace (q - c - i * c) with (q - S i * c) by lia.
      replace (i * c <=? q - c) with (S i * c <=? q)
        by (apply Bool.eq_iff_eq_true; rewrite !Nat.leb_le; lia).
      replace (q - c <? (i + 1) * c) with (q <? (S i + 1) * c)
        by (apply Bool.eq_iff_eq_true; rewrite !Nat.ltb_lt; lia).
      reflexivity.
Qed.

Lemma list_sum_const {A : Type} (f : A -> nat) (c : nat) (l : list A) :
  (forall a, In a l -> f a = c) -> list_sum (map f l) = length l * c.
Proof.
  induction l as [| a l IH]; simpl; intros H; [reflexivity |].
  rewrite (H a (or_introl eq_refl)), IH; [reflexivity |].
  intros b Hb; apply H; right; exact Hb.
Qed.

Lemma block_diag_uniform (B : nat -> tensor R) (r c k : nat) :
  1 <= k -> (forall i, i < k -> shape (B i) = [r; c]) ->
  block_diag (map B (seq 0 k))
  = Ok (mk2 (k * r) (k * c) (block_entry (map (fun i => (r, c, B i)) (seq 0 k)))).
Proof.
  intros Hk HB; unfold block_diag.
  destruct (map B (seq 0 k)) as [| x0 l] eqn:El.
  - destruct k; [lia | discriminate El].
  - rewrite <- El; clear El x0 l.
    rewrite (mapM_ok as_matrix (fun x => (r, c, x))).
    + simpl; rewrite !map_map; simpl.
      rewrite !(list_sum_const _ _ (seq 0 k)) by reflexivity.
      rewrite length_seq; reflexivity.
    + intros x Hx; apply in_map_iff in Hx; destruct Hx as [i [<- Hi]].
      apply in_seq in Hi; unfold as_matrix; rewrite HB by lia; reflexivity.
Qed.

Lemma put_entry_strided (g : nat -> nat) (r c : nat) :
  forall (vals : list R) (s : nat) (d : R),
  put_entry (combine (combine (seq s (length vals)) (map g (seq s (length vals)))) vals) r c d
  = if ((s <=? r) && (r <? s + length vals) && (c =? g r))%bool
    then nth (r - s) vals szero
    else d.
Proof.
  induction vals as [| v vals IH]; intros s d.
  - simpl; rewrite Nat.add_0_r.
    destruct (s <=? r) eqn:E1; destruct (r <? s) eqn:E2; simpl; try reflexivity.
    apply Nat.leb_le in E1; apply Nat.ltb_lt in E2; lia.
  - cbn [length seq map combine put_entry]; rewrite IH.
    destruct (S s <=? r) eqn:E1.
    + apply Nat.leb_le in E1.
      assert (X : (s <=? r) = true) by (apply Nat.leb_le; lia); rewrite X.
      replace (r <? s + S (length vals)) with (r <? S s + length vals)
        by (f_equal; lia).
      destruct (r <? S s + length vals) eqn:E2; simpl.
      * destruct (c =? g r); [| destruct (s =? r) eqn:E3; [apply Nat.eqb_eq in E3; lia |];
                                 reflexivity].
        replace (r - s) with (S (r - S s)) by lia; reflexivity.
      * destruct (s =? r) eqn:E3; [apply Nat.eqb_eq in E3; lia | reflexivity].
    + apply Nat.leb_gt in E1; simpl.
      destruct (s =? r) eqn:E3.
      * apply Nat.eqb_eq in E3; subst r.
        rewrite Nat.leb_refl.
        assert (X : (s <? s + S (length vals)) = true) by (apply Nat.ltb_lt; lia); rewrite X.
        simpl; rewrite Nat.sub_diag, (Nat.eqb_sym c (g s)).
        destruct (g s =? c); reflexivity.
      * apply Nat.eqb_neq in E3.
        assert (X : (s <=? r) = false) by (apply Nat.leb_gt; lia); rewrite X; reflexivity.
Qed.

Lemma wrap_all_nats (g : nat -> nat) (bound : nat) (l : list nat) :
  (forall k, In k l -> g k < bound) ->
  wrap_all (map (fun k => zn (g k)) l) bound = Some (map g l).
Proof.
  induction l as [| k l IH]; intros H; [reflexivity |].
  unfold wrap_all in *; cbn [map fold_right].
  rewrite IH by (intros x Hx; apply H; right; exact Hx).
  rewrite wrap_index_nat by (apply H; left; reflexivity); reflexivity.
Qed.

Lemma index_put_strided (a b stride off : nat) (vals : list R) :
  length vals = a -> (forall k, k < a -> k * stride + off < b) ->
  index_put (mkT [a; b] (repeat szero (a * b))) (arange a)
            (map (fun k => (k * zn stride + zn off)%Z) (arange a)) (mkT [a] vals)
  = Ok (mk2 a b (fun r c => if c =? r * stride + off then nth r vals szero else szero)).
Proof.
  intros Hl Hb; unfold index_put, arange; cbn [shape data].
  rewrite !length_map, length_seq, Nat.eqb_refl; cbn [negb].
  rewrite broadcast_shape_same; cbn [shape_eqb]; rewrite Nat.eqb_refl; cbn [andb].
  rewrite pad_shape_same, expand_data_same by (simpl; lia).
  rewrite (wrap_all_nats (fun k => k) a) by (intros k Hk; apply in_seq in Hk; lia).
  rewrite map_map.
  rewrite (map_ext (fun k => (zn k * zn stride + zn off)%Z) (fun k => zn (k * stride + off)))
    by (intros k; unfold zn; lia).
  rewrite (wrap_all_nats (fun k => k * stride + off) b)
    by (intros k Hk; apply in_seq in Hk; apply Hb; lia).
  rewrite map_id; f_equal.
  apply mk2_ext; intros r c Hr Hc.
  rewrite <- Hl at 1 2.
  rewrite put_entry_strided, get2_zeros.
  rewrite Nat.sub_0_r; simpl.
  destruct (r <? length vals) eqn:E; [reflexivity | apply Nat.ltb_ge in E; lia].
Qed.

Lemma filter_all {A : Type} (p : A -> bool) (l : list A) :
  (forall a, In a l -> p a = true) -> filter p l = l.
Proof.
  induction l as [| a l IH]; simpl; intros H; [reflexivity |].
  rewrite (H a (or_introl eq_refl)), IH; [reflexivity |].
  intros b Hb; apply H; right; exact Hb.
Qed.

Lemma shape_eqb_refl (s : list nat) : shape_eqb s s = true.
Proof. induction s as [| d s IH]; simpl; [reflexivity | rewrite Nat.eqb_refl; exact IH]. Qed.

Lemma flat_map_single {A B : Type} (f : A -> list B) (a : A) : flat_map f [a] = f a.
Proof. simpl; apply app_nil_r. Qed.

(** Concatenation along dimension 0 of matrices of one shape. *)
Lemma cat_rows (B : nat -> tensor R) (a b k : nat) :
  1 <= k -> (forall i, i < k -> shape (B i) = [a; b] /\ wf (B i)) ->
  cat (map B (seq 0 k)) 0 = Ok (mkT [k * a; b] (flat_map (fun i => data (B i)) (seq 0 k))).
Proof.
  intros Hk HB; unfold cat.
  assert (Hall : forall x, In x (map B (seq 0 k)) -> shape x = [a; b] /\ wf x).
  { intros x Hx; apply in_map_iff in Hx; destruct Hx as [i [<- Hi]].
    apply in_seq in Hi; apply HB; lia. }
  rewrite filter_all
    by (intros x Hx; destruct (Hall x Hx) as [Hs _]; unfold is_legacy_empty; rewrite Hs;
        destruct a; reflexivity).
  destruct (map B (seq 0 k)) as [| x0 rest] eqn:El.
  - destruct k; [lia | discriminate El].
  - destruct (Hall x0 (or_introl eq_refl)) as [Hs0 _]; rewrite Hs0; cbn [length Nat.eqb Nat.leb].
    assert (Hf : forallb (fun x => (length (shape x) =? 2)
                            && shape_eqb (shape_but 0 (shape x)) (shape_but 0 [a; b])) rest
                 = true).
    { apply forallb_forall; intros x Hx.
      destruct (Hall x (or_intror Hx)) as [Hs _]; rewrite Hs; simpl.
      rewrite Nat.eqb_refl; reflexivity. }
    rewrite Hf; cbn [firstn skipn app numel fold_right seq].
    rewrite flat_map_single, <- El; f_equal; f_equal.
    + f_equal; rewrite map_map.
      rewrite (list_sum_const _ a), length_seq; [reflexivity |].
      intros i Hi; apply in_seq in Hi; destruct (HB i) as [Hs _]; [lia |].
      rewrite Hs; reflexivity.
    + rewrite !flat_map_concat_map, map_map; f_equal.
      apply map_ext_in; intros i Hi; apply in_seq in Hi.
      destruct (HB i) as [Hs Hw]; [lia |].
      unfold chunk; simpl; unfold wf, numel in Hw; rewrite <- Hw.
      apply firstn_all.
Qed.

End Blocks.

(** ** The coupling blocks [B] and [C] *)

Section Coupling.

Context {R : Type} {SR : Scalar R}.

Variable cb : crossbar R.
Variable W : tensor R.

Hypothesis W_shape : shape W = [n cb; m cb].

Let W_t : tensor R := mk2 (m cb) (n cb) (fun i j => get2 W j i).

Lemma t_W : t W = Ok W_t.
Proof. apply t_matrix; exact W_shape. Qed.

Lemma W_t_row (i : nat) :
  i < m cb ->
  getitem W_t [Idx (zn i); SliceAll]
  = Ok (mkT [n cb] (map (fun j => get2 W j i) (seq 0 (n cb)))).
Proof.
  intros Hi.
  rewrite (getitem_row W_t (m cb) (n cb) i) by (reflexivity || apply mk2_wf || exact Hi).
  unfold W_t; rewrite mk2_row by exact Hi; reflexivity.
Qed.

Lemma makeb_ok (i : nat) : i < m cb -> makeb W_t i = Ok (B_block cb W i).
Proof.
  intros Hi; unfold makeb; rewrite (W_t_row i Hi); cbn [bind].
  rewrite diag_main; cbn [bind]; f_equal.
  unfold tneg, B_block; rewrite tmap_mk2; apply mk2_ext; intros r c Hr Hc.
  destruct (c =? r); [rewrite nth_map_seq by exact Hr |]; reflexivity.
Qed.

Lemma make_B_ok :
  1 <= m cb ->
  make_B cb W
  = Ok (mk2 (m cb * n cb) (m cb * n cb)
          (block_entry (map (fun i => (n cb, n cb, B_block cb W i)) (seq 0 (m cb))))).
Proof.
  intros Hm; unfold make_B; rewrite t_W; cbn [bind].
  rewrite (mapM_ok (makeb W_t) (B_block cb W))
    by (intros i Hi; apply in_seq in Hi; apply makeb_ok; lia).
  cbn [bind]; apply block_diag_uniform; [exact Hm | reflexivity].
Qed.

Lemma makec_ok (j : nat) : j < n cb -> makec cb W_t j = Ok (C_block cb W j).
Proof.
  intros Hj; unfold makec; rewrite zeros_matrix; cbn [bind].
  rewrite (getitem_column W_t (m cb) (n cb) j) by (reflexivity || apply mk2_wf || exact Hj).
  cbn [bind]; rewrite index_put_strided.
  - f_equal; unfold C_block; apply mk2_ext; intros r c Hr Hc.
    destruct (c =? r * n cb + j); [| reflexivity].
    rewrite nth_map_seq by exact Hr.
    unfold W_t; rewrite get2_mk2 by assumption; reflexivity.
  - rewrite length_map, length_seq; reflexivity.
  - intros k Hk; nia.
Qed.

Lemma make_C_block_ok :
  1 <= n cb ->
  make_C_block cb W
  = Ok (mkT [n cb * m cb; m cb * n cb] (flat_map (fun j => data (C_block cb W j)) (seq 0 (n cb)))).
Proof.
  intros Hn; unfold make_C_block; rewrite t_W; cbn [bind].
  rewrite (mapM_ok (makec cb W_t) (C_block cb W))
    by (intros j Hj; apply in_seq in Hj; apply makec_ok; lia).
  cbn [bind]; apply cat_rows; [exact Hn |].
  intros j _; split; [reflexivity | apply mk2_wf].
Qed.

Lemma B_entry (B : tensor R) (j k q : nat) :
  make_B cb W = Ok B -> j < n cb -> k < m cb -> q < m cb * n cb ->
  get2 B (k * n cb + j) q
  = if q =? k * n cb + j then sopp (get2 W j k)
    else if ((k * n cb <=? q) && (q <? (k + 1) * n cb))%bool then sopp szero
    else szero.
Proof.
  intros HB Hj Hk Hq.
  rewrite make_B_ok in HB by lia; inversion HB; subst B; clear HB.
  rewrite get2_mk2 by nia.
  rewrite block_entry_uniform by assumption.
  destruct (k * n cb <=? q) eqn:E1; destruct (q <? (k + 1) * n cb) eqn:E2; cbn [andb].
  - apply Nat.leb_le in E1; apply Nat.ltb_lt in E2.
    unfold B_block; rewrite get2_mk2 by lia; cbn [Nat.add].
    destruct (q =? k * n cb + j) eqn:E3.
    + apply Nat.eqb_eq in E3.
      replace (q - k * n cb =? j) with true by (symmetry; apply Nat.eqb_eq; lia).
      reflexivity.
    + apply Nat.eqb_neq in E3.
      replace (q - k * n cb =? j) with false by (symmetry; apply Nat.eqb_neq; lia).
      reflexivity.
  - apply Nat.ltb_ge in E2.
    destruct (q =? k * n cb + j) eqn:E3; [apply Nat.eqb_eq in E3; lia | reflexivity].
  - apply Nat.leb_gt in E1.
    destruct (q =? k * n cb + j) eqn:E3; [apply Nat.eqb_eq in E3; lia | reflexivity].
  - apply Nat.leb_gt in E1.
    destruct (q =? k * n cb + j) eqn:E3; [apply Nat.eqb_eq in E3; lia | reflexivity].
Qed.

Lemma C_entry (C : tensor R) (j k q : nat) :
  make_C_block cb W = Ok C -> j < n cb -> k < m cb -> q < m cb * n cb ->
  get2 C (j * m cb + k) q = if q =? k * n cb + j then get2 W j k else szero.
Proof.
  intros HC Hj Hk Hq.
  rewrite make_C_block_ok in HC by lia; inversion HC; subst C; clear HC.
  unfold get2 at 1; cbn [shape data nth].
  replace ((j * m cb + k) * (m cb * n cb) + q)
    with (j * (m cb * (m cb * n cb)) + (k * (m cb * n cb) + q)) by nia.
  rewrite (flat_map_uniform_nth _ (m cb * (m cb * n cb)) _ szero 0).
  - rewrite seq_nth by exact Hj; change (0 + j) with j.
    exact (mk2_nth _ _ _ k q szero Hk Hq).
  - intros a _; apply mk2_length.
  - rewrite length_seq; exact Hj.
  - nia.
Qed.

End Coupling.

(** C4 (as amended).  On every [n x m] conductance matrix [W], block [B]
    is diagonal, with [-W[j,k]] at row and column [k n + j], and the
    matrix [make_C] assembles has [W[j,k]] at row [j m + k] and column
    [k n + j] and zero elsewhere: its row [j m + k] is the negated row
    [k n + j] of [B], so [C] is a row permutation of [-B], not the
    transpose of [B]. *)
Theorem coupling_blocks_structure {R : Type} {SR : Scalar R}
  (cb : crossbar R) (W : tensor R) :
  shape W = [n cb; m cb] -> 1 <= n cb -> 1 <= m cb ->
  exists B C,
    make_B cb W = Ok B /\ make_C_block cb W = Ok C /\
    shape B = [m cb * n cb; m cb * n cb] /\
    shape C = [n cb * m cb; m cb * n cb] /\
    forall j k q, j < n cb -> k < m cb -> q < m cb * n cb ->
      get2 C (j * m cb + k) q = (if q =? k * n cb + j then get2 W j k else szero) /\
      get2 B (k * n cb + j) q
      = (if q =? k * n cb + j then sopp (get2 W j k)
         else if ((k * n cb <=? q) && (q <? (k + 1) * n cb))%bool then sopp szero
         else szero).
Proof.
  intros Hs Hn Hm.
  pose proof (make_B_ok cb W Hs Hm) as HB.
  pose proof (make_C_block_ok cb W Hs Hn) as HC.
  eexists; eexists; split; [exact HB |]; split; [exact HC |].
  split; [reflexivity |]; split; [reflexivity |].
  intros j k q Hj Hk Hq; split.
  - apply (C_entry cb W Hs); assumption.
  - apply (B_entry cb W Hs); assumption.
Qed.

Lemma coupling_blocks_structure_witness :
  on_crossbar crossbar22 (fun cb =>
    (shape W22 = [n cb; m cb] /\ 1 <= n cb /\ 1 <= m cb) /\
    exists B C,
      make_B cb W22 = Ok B /\ make_C_block cb W22 = Ok C /\
      get2 C (0 * m cb + 1) 2 = get2 W22 0 1 /\
      get2 B (1 * n cb + 0) 2 = sopp (get2 W22 0 1)).
Proof.
  unfold on_crossbar.
  destruct crossbar22 as [cb | e] eqn:E; [| vm_compute in E; discriminate E].
  pose proof (init_inv (DV := ohmic_devices) _ _ _ _ _ E) as [Hs _].
  assert (Hn : n cb = 2) by (simpl in Hs; congruence).
  assert (Hm : m cb = 2) by (simpl in Hs; congruence).
  split; [split; [exact Hs |]; split; lia |].
  destruct (coupling_blocks_structure cb W22 Hs ltac:(lia) ltac:(lia))
    as (B & C & HB & HC & _ & _ & Hent).
  exists B, C; split; [exact HB |]; split; [exact HC |].
  destruct (Hent 0 1 2 ltac:(lia) ltac:(lia) ltac:(rewrite Hn, Hm; simpl; lia)) as [H1 H2].
  rewrite Hn, Hm in H1; rewrite Hn in H2; rewrite Hn, Hm.
  split; [exact H1 | exact H2].
Defined.

(** C4, as first stated, fails: on the [2 x 2] matrix with entries
    1, 2, 3, 4 block [B] has the nonzero entry [-3] at position (1, 1),
    while the matrix [make_C] assembles has a zero at the transposed
    position (1, 1), its entries of rows 1 and 2 sitting at (1, 2) and
    (2, 1); and the call of [make_C] itself evaluates to [None]. *)
Lemma coupling_not_transposed :
  on_crossbar crossbar22 (fun cb =>
    exists B C,
      make_B cb W22 = Ok B /\ make_C_block cb W22 = Ok C /\
      get2 B 1 1 = (-3)%Z /\ get2 C 1 1 = 0%Z /\
      get2 C 1 2 = 2%Z /\ get2 C 2 1 = 3%Z /\
      make_C cb W22 = Ok VNone).
Proof.
  vm_compute.
  eexists; eexists; split; [reflexivity |]; split; [reflexivity |].
  repeat split.
Qed.

(** ** Shapes of the results of the primitives *)

Section Shapes.

Context {R : Type} {SR : Scalar R}.

Lemma wrap_index_in_range (z : Z) (d : nat) :
  (0 <= z < Z.of_nat d)%Z -> wrap_index z d = Some (Z.to_nat z).
Proof.
  intros H; unfold wrap_index.
  destruct (z <? 0)%Z eqn:E; [apply Z.ltb_lt in E; lia |].
  destruct (0 <=? z)%Z eqn:E1; [| apply Z.leb_gt in E1; lia].
  destruct (z <? Z.of_nat d)%Z eqn:E2; [| apply Z.ltb_ge in E2; lia].
  reflexivity.
Qed.

Lemma getitem_has_shape (x : tensor R) (ix : list index) (s : list nat) :
  index_shape (shape x) ix = Ok s -> has_shape (getitem x ix) s.
Proof.
  intros H; unfold getitem; rewrite H; cbn [bind]; eexists; split; reflexivity.
Qed.

Lemma getitem_scalar_shape (x : tensor R) (len : nat) (z : Z) :
  shape x = [len] -> (0 <= z < Z.of_nat len)%Z -> has_shape (getitem x [Idx z]) [].
Proof.
  intros Hs Hz; apply getitem_has_shape; rewrite Hs; simpl.
  rewrite wrap_index_in_range by exact Hz; reflexivity.
Qed.

Lemma getitem_row_shape (x : tensor R) (rows cols : nat) (z : Z) :
  shape x = [rows; cols] -> (0 <= z < Z.of_nat rows)%Z ->
  has_shape (getitem x [Idx z; SliceAll]) [cols].
Proof.
  intros Hs Hz; apply getitem_has_shape; rewrite Hs; simpl.
  rewrite wrap_index_in_range by exact Hz; reflexivity.
Qed.


Lemma getitem_entry_shape (x : tensor R) (rows cols : nat) (z z' : Z) :
  shape x = [rows; cols] -> (0 <= z < Z.of_nat rows)%Z -> (0 <= z' < Z.of_nat cols)%Z ->
  has_shape (getitem x [Idx z; Idx z']) [].
Proof.
  intros Hs Hz Hz'; apply getitem_has_shape; rewrite Hs; simpl.
  rewrite !wrap_index_in_range by assumption; reflexivity.
Qed.

Lemma binop_has_shape (f : R -> R -> R) (a b : tensor R) (s : list nat) :
  broadcast_shape (shape a) (shape b) = Some s -> has_shape (binop f a b) s.
Proof.
  intros H; unfold binop; rewrite H; eexists; split; reflexivity.
Qed.

Lemma broadcast_scalar_l (s : list nat) : broadcast_shape [] s = Some s.
Proof. unfold broadcast_shape; simpl; rewrite rev_involutive; reflexivity. Qed.

Lemma broadcast_scalar_r (s : list nat) : broadcast_shape s [] = Some s.
Proof.
  unfold broadcast_shape.
  replace (bshape_rev (rev s) (rev [])) with (Some (rev s))
    by (simpl; destruct (rev s); reflexivity).
  simpl; rewrite rev_involutive; reflexivity.
Qed.

Lemma broadcast_one_l (k : nat) : broadcast_shape [1] [k] = Some [k].
Proof.
  unfold broadcast_shape; simpl.
  destruct k as [| [| k]]; reflexivity.
Qed.

Lemma broadcast_squares (r k : nat) :
  2 <= k ->
  broadcast_shape [r; r] [k; k] = if (r =? 1) || (r =? k) then Some [k; k] else None.
Proof.
  intros Hk; unfold broadcast_shape; simpl.
  destruct (r =? k) eqn:E; [apply Nat.eqb_eq in E; subst r; rewrite orb_true_r; reflexivity |].
  destruct (r =? 1) eqn:E1; [reflexivity |].
  destruct (k =? 1) eqn:E2; [apply Nat.eqb_eq in E2; lia | reflexivity].
Qed.


Lemma diag_has_shape (x : tensor R) (len : nat) (k : Z) :
  shape x = [len] -> has_shape (diag x k) [len + Z.abs_nat k; len + Z.abs_nat k].
Proof.
  intros Hs; unfold diag; rewrite Hs; eexists; split; reflexivity.
Qed.

Lemma full_has_shape (z : Z) (x : R) :
  (0 <= z)%Z -> has_shape (full [z] x) [Z.to_nat z].
Proof.
  intros Hz; unfold full; simpl.
  destruct (0 <=? z)%Z eqn:E; [| apply Z.leb_gt in E; lia].
  eexists; split; reflexivity.
Qed.

Lemma view_one (x : tensor R) :
  numel (shape x) = 1 -> has_shape (view x [1%Z]) [1].
Proof.
  intros H; unfold view; simpl; rewrite H; simpl; eexists; split; reflexivity.
Qed.

Lemma unsqueeze_vector (x : tensor R) (len : nat) :
  shape x = [len] -> has_shape (unsqueeze x 1) [len; 1].
Proof.
  intros Hs; unfold unsqueeze; rewrite Hs; simpl; eexists; split; reflexivity.
Qed.

Lemma setitem2_has_shape (d v : tensor R) (a b : nat) (i j : Z) :
  shape d = [a; b] -> (0 <= i < Z.of_nat a)%Z -> (0 <= j < Z.of_nat b)%Z ->
  forallb (fun k => k =? 1) (shape v) = true ->
  has_shape (setitem2 d i j v) [a; b].
Proof.
  intros Hs Hi Hj Hv; unfold setitem2; rewrite Hs.
  rewrite !wrap_index_in_range by assumption; rewrite Hv.
  eexists; split; reflexivity.
Qed.

(** [torch.cat] of tensors none of which is skipped. *)
Lemma cat_has_shape (x0 : tensor R) (rest : list (tensor R)) (dim : nat) :
  (forall x, In x (x0 :: rest) -> is_legacy_empty x = false) ->
  dim < length (shape x0) ->
  (forall x, In x rest ->
     length (shape x) = length (shape x0) /\
     shape_but dim (shape x) = shape_but dim (shape x0)) ->
  has_shape (cat (x0 :: rest) dim)
    (firstn dim (shape x0)
     ++ list_sum (map (fun x => nth dim (shape x) 0) (x0 :: rest))
     :: skipn (S dim) (shape x0)).
Proof.
  intros Hlive Hdim Hrest; unfold cat.
  rewrite filter_all by (intros x Hx; rewrite (Hlive x Hx); reflexivity).
  destruct (length (shape x0) =? 0) eqn:E0; [apply Nat.eqb_eq in E0; lia |].
  destruct (length (shape x0) <=? dim) eqn:E1; [apply Nat.leb_le in E1; lia |].
  assert (Hf : forallb (fun x => (length (shape x) =? length (shape x0))
                          && shape_eqb (shape_but dim (shape x)) (shape_but dim (shape x0)))
                       rest = true).
  { apply forallb_forall; intros x Hx; destruct (Hrest x Hx) as [Hl Hb].
    rewrite Hl, Hb, Nat.eqb_refl, shape_eqb_refl; reflexivity. }
  rewrite Hf; eexists; split; reflexivity.
Qed.

(** The three-piece vectors of the builder: one entry, [k] entries, one
    entry. *)
Lemma cat_ends (x y z : tensor R) (k : nat) :
  shape x = [1] -> shape y = [k] -> shape z = [1] ->
  has_shape (cat [x; y; z] 0) [k + 2].
Proof.
  intros Hx Hy Hz.
  destruct k as [| k].
  - assert (E : cat [x; y; z] 0 = cat [x; z] 0)
      by (unfold cat; cbn [filter]; unfold is_legacy_empty; rewrite Hx, Hy, Hz; reflexivity).
    rewrite E; clear E.
    destruct (cat_has_shape x [z] 0) as [r [Hr Hs]].
    + intros t [<- | [<- | []]]; unfold is_legacy_empty; rewrite ?Hx, ?Hz; reflexivity.
    + rewrite Hx; simpl; lia.
    + intros t [<- | []]; rewrite ?Hx, ?Hz; split; reflexivity.
    + exists r; split; [exact Hr |].
      rewrite Hs, Hx; simpl; rewrite Hx, Hz; reflexivity.
  - destruct (cat_has_shape x [y; z] 0) as [r [Hr Hs]].
    + intros t [<- | [<- | [<- | []]]]; unfold is_legacy_empty;
        rewrite ?Hx, ?Hy, ?Hz; reflexivity.
    + rewrite Hx; simpl; lia.
    + intros t [<- | [<- | []]]; rewrite ?Hx, ?Hy, ?Hz; split; reflexivity.
    + exists r; split; [exact Hr |].
      rewrite Hs, Hx; simpl; rewrite Hx, Hy, Hz; simpl; f_equal; lia.
Qed.

Lemma mapM_has {A B : Type} (f : A -> result B) (P : B -> Prop) (l : list A) :
  (forall a, In a l -> exists b, f a = Ok b /\ P b) ->
  exists bs, mapM f l = Ok bs /\ Forall P bs /\ length bs = length l.
Proof.
  induction l as [| a l IH]; intros H.
  - exists []; repeat split; constructor.
  - destruct (H a (or_introl eq_refl)) as [b [Hb Pb]].
    destruct IH as [bs [Hbs [Pbs Hl]]]; [intros x Hx; apply H; right; exact Hx |].
    exists (b :: bs); simpl; rewrite Hb, Hbs; simpl.
    repeat split; [constructor; assumption | f_equal; exact Hl].
Qed.

Lemma cat_uniform (ts : list (tensor R)) (s : list nat) (d : nat) :
  ts <> [] -> 1 <= d ->
  Forall (fun x => shape x = d :: s) ts ->
  has_shape (cat ts 0) (length ts * d :: s).
Proof.
  intros Hne Hd Hall; destruct ts as [| x0 rest]; [contradiction |].
  inversion Hall as [| ? ? H0 Hr]; subst.
  rewrite Forall_forall in Hr.
  destruct (cat_has_shape x0 rest 0) as [r [Hr' Hs]].
  - intros x [<- | Hx]; unfold is_legacy_empty;
      [rewrite H0 | rewrite (Hr x Hx)]; destruct d; try lia; destruct s; reflexivity.
  - rewrite H0; simpl; lia.
  - intros x Hx; rewrite (Hr x Hx), H0; split; reflexivity.
  - exists r; split; [exact Hr' |].
    rewrite Hs, H0; cbn [firstn skipn app]; f_equal.
    rewrite (list_sum_const _ d); [reflexivity |].
    intros x [<- | Hx]; [rewrite H0 | rewrite (Hr x Hx)]; reflexivity.
Qed.

Lemma block_diag_has_shape (ts : list (tensor R)) (r c : nat) :
  ts <> [] -> Forall (fun x => shape x = [r; c]) ts ->
  has_shape (block_diag ts) [length ts * r; length ts * c].
Proof.
  intros Hne Hall; unfold block_diag.
  destruct ts as [| x0 rest] eqn:E; [contradiction |]; rewrite <- E in *; clear E x0 rest.
  rewrite Forall_forall in Hall.
  rewrite (mapM_ok as_matrix (fun x => (r, c, x)))
    by (intros x Hx; unfold as_matrix; rewrite (Hall x Hx); reflexivity).
  cbn [bind]; eexists; split; [reflexivity |].
  unfold mk2; cbn [shape]; rewrite !map_map; cbn [fst snd].
  rewrite !(list_sum_const _ _ ts) by reflexivity; reflexivity.
Qed.

End Shapes.

(** ** The builder on well-shaped inputs *)

Ltac bind_step lem :=
  let x := fresh "x" in
  let E := fresh "E" in
  let Sh := fresh "Sh" in
  destruct lem as [x [E Sh]];
  match type of E with
  | ?l = _ =>
      lazymatch goal with
      | |- has_shape (bind ?e _) _ => change e with l
      | |- bind ?e _ = _ => change e with l
      end
  end;
  rewrite E; cbn [bind]; clear E.

Section Builder.

Context {R : Type} {SR : Scalar R}.

Variable cb : crossbar R.

Hypothesis WS : well_shaped cb.

Lemma full_sub (k : nat) (x : R) :
  k <= n cb -> has_shape (full [(zn (n cb) - Z.of_nat k)%Z] x) [n cb - k].
Proof.
  intros Hk.
  destruct (full_has_shape (zn (n cb) - Z.of_nat k) x) as [r [Hr Hs]]; [unfold zn; lia |].
  exists r; split; [exact Hr |].
  rewrite Hs; f_equal; unfold zn; lia.
Qed.

Lemma diag_main_shape (x : tensor R) (len : nat) :
  shape x = [len] -> has_shape (diag x 0) [len; len].
Proof.
  intros Hs; destruct (diag_has_shape x len 0 Hs) as [r [Hr Hs']].
  exists r; split; [exact Hr |]; rewrite Hs'; simpl; rewrite Nat.add_0_r; reflexivity.
Qed.

Lemma diag_off_shape (x : tensor R) (len : nat) (k : Z) :
  Z.abs_nat k = 1 -> shape x = [len] -> has_shape (diag x k) [len + 1; len + 1].
Proof.
  intros Hk Hs; destruct (diag_has_shape x len k Hs) as [r [Hr Hs']].
  exists r; split; [exact Hr |]; rewrite Hs', Hk; reflexivity.
Qed.

Lemma tadd_same (a b : tensor R) (s : list nat) :
  shape a = s -> shape b = s -> has_shape (tadd a b) s.
Proof.
  intros Ha Hb; apply binop_has_shape; rewrite Ha, Hb; apply broadcast_shape_same.
Qed.

Lemma ladder_ends (x z : tensor R) :
  2 <= n cb -> shape x = [1] -> shape z = [1] ->
  forall y, shape y = [n cb - 2] -> has_shape (cat [x; y; z] 0) [n cb].
Proof.
  intros Hn Hx Hz y Hy.
  destruct (cat_ends x y z (n cb - 2) Hx Hy Hz) as [r [Hr Hs]].
  exists r; split; [exact Hr |]; rewrite Hs; f_equal; lia.
Qed.

(** A row of [W_t] of length [n], or of length 1, which is broadcast
    along the diagonal. *)
Lemma makea_has_shape (W_t : tensor R) (rows r i : nat) :
  2 <= n cb -> shape W_t = [rows; r] -> r = 1 \/ r = n cb -> i < rows -> i < m cb ->
  has_shape (makea cb W_t i) [n cb; n cb].
Proof.
  intros Hn HW Hr Hi Him; unfold makea, ones, zeros; cbv zeta.
  destruct (ws_g_wl WS) as [Hgwl _].
  destruct (ws_g_s_wl_in WS) as [Hgin _].
  destruct (ws_g_s_wl_out WS) as [Hgout _].
  bind_step (getitem_row_shape W_t rows r (zn i) HW ltac:(unfold zn; lia)).
  bind_step (diag_main_shape x r Sh).
  bind_step (full_sub 2 sone Hn).
  bind_step (binop_has_shape smul (tmuls (g_wl cb) (slit 2%Q)) x1 [n cb - 2]
               ltac:(cbn [tmuls tmap shape]; rewrite Hgwl, Sh1; apply broadcast_one_l)).
  bind_step (ladder_ends (g_wl cb) (g_wl cb) Hn Hgwl Hgwl x2 Sh2).
  bind_step (diag_main_shape x3 (n cb) Sh3).
  bind_step (binop_has_shape sadd x0 x4 [n cb; n cb]
               ltac:(rewrite Sh0, Sh4, broadcast_squares by exact Hn;
                     destruct Hr as [-> | ->]; [| rewrite Nat.eqb_refl, orb_true_r];
                     reflexivity)).
  bind_step (full_sub 1 sone ltac:(lia)).
  bind_step (binop_has_shape smul (tmuls (g_wl cb) (slit (-1)%Q)) x6 [n cb - 1]
               ltac:(cbn [tmuls tmap shape]; rewrite Hgwl, Sh6; apply broadcast_one_l)).
  bind_step (diag_off_shape x7 (n cb - 1) 1 eq_refl Sh7).
  replace (n cb - 1 + 1) with (n cb) in Sh8 by lia.
  bind_step (tadd_same x5 x8 [n cb; n cb] Sh5 Sh8).
  bind_step (diag_off_shape x7 (n cb - 1) (-1) eq_refl Sh7).
  replace (n cb - 1 + 1) with (n cb) in Sh10 by lia.
  bind_step (tadd_same x9 x10 [n cb; n cb] Sh9 Sh10).
  bind_step (getitem_scalar_shape (g_s_wl_in cb) (m cb) (zn i) Hgin ltac:(unfold zn; lia)).
  bind_step (view_one x12 ltac:(rewrite Sh12; reflexivity)).
  bind_step (full_sub 2 szero Hn).
  bind_step (getitem_scalar_shape (g_s_wl_out cb) (m cb) (zn i) Hgout ltac:(unfold zn; lia)).
  bind_step (view_one x15 ltac:(rewrite Sh15; reflexivity)).
  bind_step (ladder_ends x13 x16 Hn Sh13 Sh16 x14 Sh14).
  bind_step (diag_main_shape x17 (n cb) Sh17).
  apply tadd_same; assumption.
Qed.

Lemma t_has_shape (W : tensor R) (rows cols : nat) :
  shape W = [rows; cols] -> has_shape (t W) [cols; rows].
Proof. intros Hs; rewrite (t_matrix W rows cols Hs); eexists; split; reflexivity. Qed.

Lemma nonempty_of_length {A : Type} (l : list A) : 1 <= length l -> l <> [].
Proof. destruct l; simpl; [lia | discriminate]. Qed.

Lemma make_A_has_shape (W : tensor R) (cols : nat) :
  2 <= n cb -> 1 <= m cb -> m cb <= cols -> shape W = [n cb; cols] ->
  has_shape (make_A cb W) [m cb * n cb; m cb * n cb].
Proof.
  intros Hn Hm Hc HW; unfold make_A.
  bind_step (t_has_shape W (n cb) cols HW).
  destruct (mapM_has (makea cb x) (fun b => shape b = [n cb; n cb]) (seq 0 (m cb)))
    as [bs [E [Hall Hl]]].
  { intros i Hi; apply in_seq in Hi.
    apply (makea_has_shape x cols (n cb) i); try assumption; lia || (right; reflexivity). }
  rewrite E; cbn [bind]; rewrite length_seq in Hl; rewrite <- Hl.
  apply block_diag_has_shape; [apply nonempty_of_length; lia | exact Hall].
Qed.

Lemma makeb_has_shape (W_t : tensor R) (rows i : nat) :
  shape W_t = [rows; n cb] -> i < rows -> has_shape (makeb W_t i) [n cb; n cb].
Proof.
  intros HW Hi; unfold makeb.
  bind_step (getitem_row_shape W_t rows (n cb) (zn i) HW ltac:(unfold zn; lia)).
  bind_step (diag_main_shape x (n cb) Sh).
  eexists; split; [reflexivity | exact Sh0].
Qed.

Lemma make_B_has_shape (W : tensor R) (cols : nat) :
  1 <= m cb -> m cb <= cols -> shape W = [n cb; cols] ->
  has_shape (make_B cb W) [m cb * n cb; m cb * n cb].
Proof.
  intros Hm Hc HW; unfold make_B.
  bind_step (t_has_shape W (n cb) cols HW).
  destruct (mapM_has (makeb x) (fun b => shape b = [n cb; n cb]) (seq 0 (m cb)))
    as [bs [E [Hall Hl]]].
  { intros i Hi; apply in_seq in Hi; apply (makeb_has_shape x cols i); [assumption | lia]. }
  rewrite E; cbn [bind]; rewrite length_seq in Hl; rewrite <- Hl.
  apply block_diag_has_shape; [apply nonempty_of_length; lia | exact Hall].
Qed.

End Builder.

Section BitLines.

Context {R : Type} {SR : Scalar R}.

Variable cb : crossbar R.

Hypothesis WS : well_shaped cb.

Lemma foldM_has {A S : Type} (f : S -> A -> result S) (P : S -> Prop) (l : list A) :
  (forall s a, In a l -> P s -> exists s', f s a = Ok s' /\ P s') ->
  forall s, P s -> exists s', foldM f l s = Ok s' /\ P s'.
Proof.
  induction l as [| a l IH]; intros H s Hs.
  - exists s; split; [reflexivity | exact Hs].
  - destruct (H s a (or_introl eq_refl) Hs) as [s1 [E1 P1]].
    simpl; rewrite E1; cbn [bind].
    apply IH; [| exact P1].
    intros s2 b Hb; apply H; right; exact Hb.
Qed.

Lemma one_entry_g_bl : forallb (fun k => k =? 1) (shape (g_bl cb)) = true.
Proof. destruct (ws_g_bl WS) as [Hs _]; rewrite Hs; reflexivity. Qed.

Lemma tsub_vector_scalar (a b : tensor R) :
  shape a = [1] -> shape b = [] -> has_shape (tsub a b) [1].
Proof.
  intros Ha Hb; apply binop_has_shape; rewrite Ha, Hb; apply broadcast_scalar_r.
Qed.

Lemma tsub_scalar_vector (a b : tensor R) :
  shape a = [] -> shape b = [1] -> has_shape (tsub a b) [1].
Proof.
  intros Ha Hb; apply binop_has_shape; rewrite Ha, Hb; apply broadcast_scalar_l.
Qed.

Lemma tsub_vectors (a b : tensor R) :
  shape a = [1] -> shape b = [1] -> has_shape (tsub a b) [1].
Proof.
  intros Ha Hb; apply binop_has_shape; rewrite Ha, Hb; apply broadcast_shape_same.
Qed.

Lemma tsub_scalars (a b : tensor R) :
  shape a = [] -> shape b = [] -> has_shape (tsub a b) [].
Proof.
  intros Ha Hb; apply binop_has_shape; rewrite Ha, Hb; apply broadcast_shape_same.
Qed.

Lemma maked_row_has_shape (W_t d : tensor R) (j i : nat) :
  shape W_t = [m cb; n cb] -> j < n cb -> 1 <= i < m cb ->
  shape d = [m cb; m cb * n cb] ->
  has_shape (maked_row cb W_t j d i) [m cb; m cb * n cb].
Proof.
  intros HW Hj Hi Hd; unfold maked_row; cbv zeta.
  destruct (ws_g_bl WS) as [Hg _].
  pose proof one_entry_g_bl as H1.
  assert (Hr : (0 <= zn i < Z.of_nat (m cb))%Z) by (unfold zn; lia).
  assert (Hc : (0 <= zn j < Z.of_nat (n cb))%Z) by (unfold zn; lia).
  bind_step (setitem2_has_shape d (g_bl cb) (m cb) (m cb * n cb) (zn i)
               (zn (n cb) * (zn i - 1) + zn j)%Z Hd Hr
               ltac:(unfold zn; rewrite Nat2Z.inj_mul; nia) H1).
  bind_step (getitem_entry_shape W_t (m cb) (n cb) (zn i) (zn j) HW Hr Hc).
  bind_step (tsub_vector_scalar (tneg (g_bl cb)) x0 Hg Sh0).
  bind_step (tsub_vectors x1 (g_bl cb) Sh1 Hg).
  bind_step (setitem2_has_shape x x2 (m cb) (m cb * n cb) (zn i)
               (zn (n cb) * zn i + zn j)%Z Sh Hr
               ltac:(unfold zn; rewrite Nat2Z.inj_mul; nia)
               ltac:(rewrite Sh2; reflexivity)).
  apply (setitem2_has_shape x3 (g_bl cb) (m cb) (m cb * n cb)); try assumption.
  unfold zn; rewrite Nat2Z.inj_mul; nia.
Qed.

Lemma maked_has_shape (W_t : tensor R) (j : nat) :
  2 <= m cb -> shape W_t = [m cb; n cb] -> j < n cb ->
  has_shape (maked cb W_t j) [m cb; m cb * n cb].
Proof.
  intros Hm HW Hj; unfold maked; cbv zeta.
  destruct (ws_g_bl WS) as [Hg _].
  destruct (ws_g_s_bl_in WS) as [Hgin _].
  destruct (ws_g_s_bl_out WS) as [Hgout _].
  pose proof one_entry_g_bl as H1.
  assert (Hc : (0 <= zn j < Z.of_nat (n cb))%Z) by (unfold zn; lia).
  assert (H0 : (0 <= 0 < Z.of_nat (m cb))%Z) by lia.
  assert (Hl : (0 <= zn (m cb) - 1 < Z.of_nat (m cb))%Z) by (unfold zn; lia).
  rewrite zeros_matrix; cbn [bind].
  bind_step (getitem_scalar_shape (g_s_bl_in cb) (n cb) (zn j) Hgin Hc).
  bind_step (tsub_scalar_vector (tneg x) (g_bl cb) Sh Hg).
  bind_step (getitem_entry_shape W_t (m cb) (n cb) 0%Z (zn j) HW H0 Hc).
  bind_step (tsub_vector_scalar x0 x1 Sh0 Sh1).
  bind_step (setitem2_has_shape (mkT [m cb; m cb * n cb] (repeat szero (m cb * (m cb * n cb))))
               x2 (m cb) (m cb * n cb) 0%Z (zn j) eq_refl H0
               ltac:(unfold zn; rewrite Nat2Z.inj_mul; nia)
               ltac:(rewrite Sh2; reflexivity)).
  bind_step (setitem2_has_shape x3 (g_bl cb) (m cb) (m cb * n cb) 0%Z
               (zn (n cb) * (0 + 1) + zn j)%Z Sh3 H0
               ltac:(unfold zn; rewrite Nat2Z.inj_mul; nia) H1).
  destruct (foldM_has (maked_row cb W_t j) (fun d => shape d = [m cb; m cb * n cb])
              (seq 1 (m cb - 1))) with (s := x4) as [x5 [E Sh5]].
  { intros d i Hi Hd; apply in_seq in Hi; apply maked_row_has_shape; try assumption; lia. }
  { exact Sh4. }
  rewrite E; cbn [bind]; clear E.
  bind_step (setitem2_has_shape x5 (g_bl cb) (m cb) (m cb * n cb) (zn (m cb) - 1)%Z
               (zn (n cb) * (zn (m cb) - 1 - 1) + zn j)%Z Sh5 Hl
               ltac:(unfold zn; rewrite Nat2Z.inj_mul; nia) H1).
  bind_step (getitem_scalar_shape (g_s_bl_out cb) (n cb) (zn j) Hgout Hc).
  bind_step (getitem_entry_shape W_t (m cb) (n cb) (zn (m cb) - 1)%Z (zn j) HW Hl Hc).
  bind_step (tsub_scalars (tneg x7) x8 Sh7 Sh8).
  bind_step (tsub_scalar_vector x9 (g_bl cb) Sh9 Hg).
  apply (setitem2_has_shape x6 x10 (m cb) (m cb * n cb)); try assumption.
  - unfold zn; rewrite Nat2Z.inj_mul; nia.
  - rewrite Sh10; reflexivity.
Qed.

Lemma make_D_has_shape (W : tensor R) :
  1 <= n cb -> 2 <= m cb -> shape W = [n cb; m cb] ->
  has_shape (make_D cb W) [n cb * m cb; m cb * n cb].
Proof.
  intros Hn Hm HW; unfold make_D.
  bind_step (t_has_shape W (n cb) (m cb) HW).
  destruct (mapM_has (maked cb x) (fun b => shape b = [m cb; m cb * n cb]) (seq 0 (n cb)))
    as [bs [E [Hall Hl]]].
  { intros j Hj; apply in_seq in Hj; apply maked_has_shape; try assumption; lia. }
  rewrite E; cbn [bind]; rewrite length_seq in Hl.
  replace (n cb * m cb) with (length bs * m cb) by (rewrite Hl; reflexivity).
  apply cat_uniform; [apply nonempty_of_length; lia | lia | exact Hall].
Qed.

End BitLines.

Section RightHandSide.

Context {R : Type} {SR : Scalar R}.

Variable cb : crossbar R.

Hypothesis WS : well_shaped cb.

Lemma tmul_scalars (a b : tensor R) :
  shape a = [] -> shape b = [] -> has_shape (tmul a b) [].
Proof.
  intros Ha Hb; apply binop_has_shape; rewrite Ha, Hb; apply broadcast_shape_same.
Qed.

Lemma make_E_B_col_has_shape (i : nat) :
  2 <= n cb -> i < n cb -> has_shape (make_E_B_col cb i) [n cb; 1].
Proof.
  intros Hn Hi; unfold make_E_B_col, zeros.
  destruct (ws_v_bl_in WS) as [Hv _].
  destruct (ws_g_s_bl_in WS) as [Hgin _].
  destruct (ws_g_s_bl_out WS) as [Hgout _].
  assert (Hr : (0 <= zn i < Z.of_nat (n cb))%Z) by (unfold zn; lia).
  bind_step (getitem_scalar_shape (v_bl_in cb) (n cb) (zn i) Hv Hr).
  bind_step (getitem_scalar_shape (g_s_bl_in cb) (n cb) (zn i) Hgin Hr).
  bind_step (tmul_scalars (tneg x) x0 Sh Sh0).
  bind_step (view_one x1 ltac:(rewrite Sh1; reflexivity)).
  bind_step (full_sub cb 2 szero Hn).
  bind_step (getitem_scalar_shape (g_s_bl_out cb) (n cb) (zn i) Hgout Hr).
  bind_step (tmul_scalars (tneg x) x4 Sh Sh4).
  bind_step (view_one x5 ltac:(rewrite Sh5; reflexivity)).
  bind_step (ladder_ends cb x2 x6 Hn Sh2 Sh6 x3 Sh3).
  apply unsqueeze_vector; exact Sh7.
Qed.

Lemma make_E_W_col_has_shape (v : tensor R) (len i : nat) :
  2 <= n cb -> shape v = [len] -> i < len -> i < m cb ->
  has_shape (make_E_W_col cb v i) [n cb].
Proof.
  intros Hn Hv Hi Him; unfold make_E_W_col, zeros.
  destruct (ws_v_wl_out WS) as [Hvo _].
  destruct (ws_g_s_wl_in WS) as [Hgin _].
  destruct (ws_g_s_wl_out WS) as [Hgout _].
  assert (Hr : (0 <= zn i < Z.of_nat (m cb))%Z) by (unfold zn; lia).
  bind_step (getitem_scalar_shape v len (zn i) Hv ltac:(unfold zn; lia)).
  bind_step (getitem_scalar_shape (g_s_wl_in cb) (m cb) (zn i) Hgin Hr).
  bind_step (tmul_scalars x x0 Sh Sh0).
  bind_step (view_one x1 ltac:(rewrite Sh1; reflexivity)).
  bind_step (full_sub cb 2 szero Hn).
  bind_step (getitem_scalar_shape (v_wl_out cb) (m cb) (zn i) Hvo Hr).
  bind_step (view_one x4 ltac:(rewrite Sh4; reflexivity)).
  bind_step (getitem_scalar_shape (g_s_wl_out cb) (m cb) (zn i) Hgout Hr).
  bind_step (binop_has_shape smul x5 x6 [1]
               ltac:(rewrite Sh5, Sh6; apply broadcast_scalar_r)).
  bind_step (view_one x7 ltac:(rewrite Sh7; reflexivity)).
  apply (ladder_ends cb x2 x8 Hn Sh2 Sh8 x3 Sh3).
Qed.


Lemma mapM_raises {A B : Type} (f : A -> result B) (l1 l2 : list A) (a : A) (e : exn) :
  (forall x, In x l1 -> exists b, f x = Ok b) -> f a = Raise e ->
  mapM f (l1 ++ a :: l2) = Raise e.
Proof.
  induction l1 as [| x l1 IH]; intros H Ha; simpl.
  - rewrite Ha; reflexivity.
  - destruct (H x (or_introl eq_refl)) as [b Hb]; rewrite Hb; cbn [bind].
    rewrite IH; [reflexivity | | exact Ha].
    intros y Hy; apply H; right; exact Hy.
Qed.

Lemma make_E_B_has_shape :
  2 <= n cb -> 1 <= m cb -> m cb <= n cb ->
  exists bcols E_B,
    mapM (make_E_B_col cb) (seq 0 (m cb)) = Ok bcols /\
    cat bcols 0 = Ok E_B /\ shape E_B = [m cb * n cb; 1].
Proof.
  intros Hn Hm Hmn.
  destruct (mapM_has (make_E_B_col cb) (fun b => shape b = [n cb; 1]) (seq 0 (m cb)))
    as [bs [E [Hall Hl]]].
  { intros i Hi; apply in_seq in Hi; apply make_E_B_col_has_shape; lia. }
  rewrite length_seq in Hl.
  destruct (cat_uniform bs [1] (n cb)) as [E_B [HE Hs]];
    [apply nonempty_of_length; lia | lia | exact Hall |].
  exists bs, E_B; rewrite Hl in Hs; repeat split; assumption.
Qed.

Lemma make_E_has_shape (v : tensor R) (len : nat) :
  2 <= n cb -> 1 <= m cb -> m cb <= n cb -> shape v = [len] -> m cb <= len ->
  has_shape (make_E cb v) [2 * (m cb * n cb); 1].
Proof.
  intros Hn Hm Hmn Hv Hlen; unfold make_E.
  destruct (make_E_B_has_shape Hn Hm Hmn) as (bs & E_B & E1 & E2 & HsB).
  rewrite E1; cbn [bind]; rewrite E2; cbn [bind].
  destruct (mapM_has (make_E_W_col cb v) (fun b => shape b = [n cb]) (seq 0 (m cb)))
    as [ws [E [Hall Hl]]].
  { intros i Hi; apply in_seq in Hi; apply (make_E_W_col_has_shape v len); lia || assumption. }
  rewrite E; cbn [bind]; rewrite length_seq in Hl.
  bind_step (cat_uniform ws [] (n cb) ltac:(apply nonempty_of_length; lia) ltac:(lia) Hall).
  rewrite Hl in Sh.
  bind_step (unsqueeze_vector x (m cb * n cb) Sh).
  destruct (cat_uniform [x0; E_B] [1] (m cb * n cb)) as [r [Hr Hs]];
    [discriminate | nia | repeat constructor; assumption |].
  exists r; split; [exact Hr | exact Hs].
Qed.


End RightHandSide.

(** ** The entries of the right-hand side *)

Section RightHandSideEntries.

Context {R : Type} {SR : Scalar R}.

Variable cb : crossbar R.

Hypothesis WS : well_shaped cb.
Hypothesis n_two : 2 <= n cb.

Lemma cat_ends_data (p q : R) (ys : list R) :
  cat [mkT [1] [p]; mkT [length ys] ys; mkT [1] [q]] 0
  = Ok (mkT [length ys + 2] (p :: ys ++ [q])).
Proof.
  destruct ys as [| y ys]; [reflexivity |].
  unfold cat; cbn [filter is_legacy_empty shape length negb].
  cbn [length shape Nat.eqb Nat.leb forallb shape_but firstn skipn app shape_eqb andb].
  cbn [numel fold_right seq map nth list_sum shape].
  rewrite flat_map_single; cbn [flat_map data shape].
  unfold chunk; cbn [Nat.mul skipn numel fold_right].
  simpl firstn; rewrite Nat.mul_1_r, firstn_all; simpl app.
  do 2 f_equal; f_equal; lia.
Qed.

Lemma zeros_ladder : zeros [(zn (n cb) - 2)%Z] = Ok (mkT [n cb - 2] (repeat szero (n cb - 2))).
Proof.
  unfold zeros, full; cbn [forallb map].
  destruct (0 <=? zn (n cb) - 2)%Z eqn:E; [| apply Z.leb_gt in E; unfold zn in E; lia].
  cbn [andb]; replace (Z.to_nat (zn (n cb) - 2)) with (n cb - 2) by (unfold zn; lia).
  simpl; rewrite Nat.mul_1_r; reflexivity.
Qed.

Lemma ladder_length : length (repeat (@szero R SR) (n cb - 2)) + 2 = n cb.
Proof. rewrite repeat_length; lia. Qed.

Lemma cat_ladder (p q : R) :
  cat [mkT [1] [p]; mkT [n cb - 2] (repeat szero (n cb - 2)); mkT [1] [q]] 0
  = Ok (mkT [n cb] (p :: repeat szero (n cb - 2) ++ [q])).
Proof.
  pose proof (cat_ends_data p q (repeat szero (n cb - 2))) as H.
  rewrite ladder_length in H; rewrite repeat_length in H; exact H.
Qed.

Lemma entry_of (x : tensor R) (len i : nat) :
  vector_of len x -> i < len -> getitem x [Idx (zn i)] = Ok (mkT [] [nth i (data x) szero]).
Proof. intros [Hs Hl] Hi; apply (getitem_vector x len i); assumption. Qed.

Lemma view_entry (p : R) : view (mkT [] [p]) [1%Z] = Ok (mkT [1] [p]).
Proof. reflexivity. Qed.

Lemma view_vector_entry (p : R) : view (mkT [1] [p]) [1%Z] = Ok (mkT [1] [p]).
Proof. reflexivity. Qed.

Lemma tmul_entries (a b : R) : tmul (mkT [] [a]) (mkT [] [b]) = Ok (mkT [] [smul a b]).
Proof. reflexivity. Qed.

Lemma tmul_vector_entry (a b : R) : tmul (mkT [1] [a]) (mkT [] [b]) = Ok (mkT [1] [smul a b]).
Proof. reflexivity. Qed.

Lemma unsqueeze_column (len : nat) (xs : list R) :
  unsqueeze (mkT [len] xs) 1 = Ok (mkT [len; 1] xs).
Proof. reflexivity. Qed.

Lemma make_E_B_col_ok (i : nat) :
  i < n cb -> make_E_B_col cb i = Ok (mkT [n cb; 1] (E_B_entries cb i)).
Proof.
  intros Hi; unfold make_E_B_col.
  rewrite (entry_of _ _ i (ws_v_bl_in WS) Hi); cbn [bind].
  rewrite (entry_of _ _ i (ws_g_s_bl_in WS) Hi); cbn [bind].
  rewrite (entry_of _ _ i (ws_g_s_bl_out WS) Hi).
  unfold tneg, tmap; cbn [shape data map].
  repeat (first [rewrite tmul_entries | rewrite view_entry | rewrite zeros_ladder
                | rewrite cat_ladder];
          cbn [bind]).
  apply unsqueeze_column.
Qed.

Lemma make_E_W_col_ok (v : tensor R) (len i : nat) :
  vector_of len v -> i < len -> i < m cb ->
  make_E_W_col cb v i = Ok (mkT [n cb] (E_W_entries cb v i)).
Proof.
  intros Hv Hi Him; unfold make_E_W_col.
  rewrite (entry_of _ _ i Hv Hi); cbn [bind].
  rewrite (entry_of _ _ i (ws_g_s_wl_in WS) Him); cbn [bind].
  rewrite (entry_of _ _ i (ws_v_wl_out WS) Him).
  rewrite (entry_of _ _ i (ws_g_s_wl_out WS) Him).
  repeat (first [rewrite tmul_entries | rewrite view_entry | rewrite zeros_ladder
                | rewrite tmul_vector_entry | rewrite view_vector_entry];
          cbn [bind]).
  apply cat_ladder.
Qed.

Lemma E_B_entries_length (i : nat) : length (E_B_entries cb i) = n cb.
Proof.
  unfold E_B_entries; cbn [length]; rewrite length_app, repeat_length; simpl; lia.
Qed.

Lemma E_W_entries_length (v : tensor R) (i : nat) : length (E_W_entries cb v i) = n cb.
Proof.
  unfold E_W_entries; cbn [length]; rewrite length_app, repeat_length; simpl; lia.
Qed.

(** Concatenation along dimension 0 of vectors of one positive length. *)
Lemma cat_vectors (B : nat -> tensor R) (d k : nat) :
  1 <= k -> 1 <= d -> (forall i, i < k -> vector_of d (B i)) ->
  cat (map B (seq 0 k)) 0 = Ok (mkT [k * d] (flat_map (fun i => data (B i)) (seq 0 k))).
Proof.
  intros Hk Hd HB; unfold cat.
  assert (Hall : forall x, In x (map B (seq 0 k)) -> vector_of d x).
  { intros x Hx; apply in_map_iff in Hx; destruct Hx as [i [<- Hi]].
    apply in_seq in Hi; apply HB; lia. }
  rewrite filter_all
    by (intros x Hx; destruct (Hall x Hx) as [Hs _]; unfold is_legacy_empty; rewrite Hs;
        destruct d; [lia | reflexivity]).
  destruct (map B (seq 0 k)) as [| x0 rest] eqn:El.
  - destruct k; [lia | discriminate El].
  - destruct (Hall x0 (or_introl eq_refl)) as [Hs0 _]; rewrite Hs0; cbn [length Nat.eqb Nat.leb].
    assert (Hf : forallb (fun x => (length (shape x) =? 1)
                            && shape_eqb (shape_but 0 (shape x)) (shape_but 0 [d])) rest
                 = true).
    { apply forallb_forall; intros x Hx.
      destruct (Hall x (or_intror Hx)) as [Hs _]; rewrite Hs; reflexivity. }
    rewrite Hf; cbn [firstn skipn app numel fold_right seq].
    rewrite flat_map_single, <- El; f_equal; f_equal.
    + f_equal; rewrite map_map.
      rewrite (list_sum_const _ d), length_seq; [reflexivity |].
      intros i Hi; apply in_seq in Hi; destruct (HB i) as [Hs _]; [lia |].
      rewrite Hs; reflexivity.
    + rewrite !flat_map_concat_map, map_map; f_equal.
      apply map_ext_in; intros i Hi; apply in_seq in Hi.
      destruct (HB i) as [Hs Hl]; [lia |].
      unfold chunk; rewrite Hs; simpl; rewrite Nat.mul_1_r, <- Hl.
      apply firstn_all.
Qed.

Lemma make_E_ok (v : tensor R) (len : nat) :
  1 <= m cb -> m cb <= n cb -> vector_of len v -> m cb <= len ->
  make_E cb v
  = Ok (mkT [2 * (m cb * n cb); 1]
          (flat_map (E_W_entries cb v) (seq 0 (m cb))
           ++ flat_map (E_B_entries cb) (seq 0 (m cb)))).
Proof.
  intros Hm Hmn Hv Hlen; unfold make_E.
  rewrite (mapM_ok (make_E_B_col cb) (fun i => mkT [n cb; 1] (E_B_entries cb i)))
    by (intros i Hi; apply in_seq in Hi; apply make_E_B_col_ok; lia).
  cbn [bind].
  rewrite (cat_rows (fun i => mkT [n cb; 1] (E_B_entries cb i)) (n cb) 1 (m cb) Hm)
    by (intros i _; split; [reflexivity |];
        unfold wf; cbn [data shape numel fold_right]; rewrite E_B_entries_length; lia).
  cbn [bind data].
  rewrite (mapM_ok (make_E_W_col cb v) (fun i => mkT [n cb] (E_W_entries cb v i)))
    by (intros i Hi; apply in_seq in Hi; apply (make_E_W_col_ok v len); assumption || lia).
  cbn [bind].
  rewrite (cat_vectors (fun i => mkT [n cb] (E_W_entries cb v i)) (n cb) (m cb) Hm)
    by (lia || (intros i _; split; [reflexivity | apply E_W_entries_length])).
  cbn [bind data]; unfold unsqueeze; cbn [shape length Nat.leb firstn skipn app bind data].
  set (EW := mkT [m cb * n cb; 1] (flat_map (E_W_entries cb v) (seq 0 (m cb)))).
  set (EB := mkT [m cb * n cb; 1] (flat_map (E_B_entries cb) (seq 0 (m cb)))).
  assert (Hw : forall t0, In t0 [EW; EB] -> shape t0 = [m cb * n cb; 1] /\ wf t0).
  { intros t0 [<- | [<- | []]]; (split; [reflexivity |]);
      unfold wf; cbn [data shape numel fold_right EW EB].
    - rewrite (flat_map_uniform_length _ (n cb)), length_seq; [lia |].
      intros a _; apply E_W_entries_length.
    - rewrite (flat_map_uniform_length _ (n cb)), length_seq; [lia |].
      intros a _; apply E_B_entries_length. }
  transitivity (cat (map (fun i => nth i [EW; EB] EW) (seq 0 2)) 0); [reflexivity |].
  rewrite (cat_rows (fun i => nth i [EW; EB] EW) (m cb * n cb) 1 2)
    by (lia || (intros i Hi; apply Hw; destruct i as [| [| i]];
                [left | right; left | lia]; reflexivity)).
  cbn [seq flat_map nth data EW EB]; rewrite app_nil_r; reflexivity.
Qed.

Lemma make_E_more_columns (v : tensor R) :
  n cb < m cb -> make_E cb v = Raise IndexError.
Proof.
  intros Hnm; unfold make_E.
  replace (seq 0 (m cb)) with (seq 0 (n cb) ++ n cb :: seq (S (n cb)) (m cb - S (n cb))).
  - rewrite (mapM_raises _ _ _ (n cb) IndexError); [reflexivity | |].
    + intros i Hi; apply in_seq in Hi; eexists; apply make_E_B_col_ok; lia.
    + unfold make_E_B_col.
      destruct (ws_v_bl_in WS) as [Hs _].
      rewrite (getitem_vector_over _ (n cb) (n cb) Hs (le_n _)); reflexivity.
  - transitivity (seq 0 (n cb + S (m cb - S (n cb))));
      [rewrite seq_app; reflexivity | f_equal; lia].
Qed.


End RightHandSideEntries.

(** ** Assembling the system *)

Section Assembly.

Context {R : Type} {SR : Scalar R} {DV : Devices R} {INV : Inverse R}.

Variable cb : crossbar R.

Hypothesis WS : well_shaped cb.

Lemma cat_side_by_side (A B : tensor R) (rows c1 c2 : nat) :
  shape A = [rows; c1] -> shape B = [rows; c2] ->
  exists AB, cat_values [VTensor A; VTensor B] 1 = Ok AB.
Proof.
  intros HA HB; unfold cat_values; cbn [tensors_of option_map].
  destruct (cat_has_shape A [B] 1) as [r [Hr _]].
  - intros x [<- | [<- | []]]; unfold is_legacy_empty; rewrite ?HA, ?HB;
      destruct rows; reflexivity.
  - rewrite HA; simpl; lia.
  - intros x [<- | []]; rewrite HA, HB; split; reflexivity.
  - exists r; exact Hr.
Qed.

Lemma assemble_valid (W v : tensor R) (len : nat) :
  2 <= n cb -> 2 <= m cb -> m cb <= n cb ->
  shape W = [n cb; m cb] -> shape v = [len] -> m cb <= len ->
  assemble cb W v = Raise TypeError.
Proof.
  intros Hn Hm Hmn HW Hv Hlen; unfold assemble.
  destruct (make_A_has_shape cb WS W (m cb)) as [A [EA SA]]; try assumption; try lia.
  destruct (make_B_has_shape cb W (m cb)) as [B [EB SB]]; try assumption; try lia.
  destruct (make_D_has_shape cb WS W) as [D [ED SD]]; try assumption; try lia.
  destruct (make_E_has_shape cb WS v len) as [E [EE SE]]; try assumption; try lia.
  rewrite EA, EB; cbn [bind].
  unfold make_C; rewrite (make_C_block_ok cb W HW) by lia; cbn [bind].
  rewrite ED, EE; cbn [bind].
  destruct (cat_side_by_side A B _ _ _ SA SB) as [AB EAB]; rewrite EAB; cbn [bind].
  reflexivity.
Qed.

End Assembly.

(** ** Conductance matrices of another shape *)

Section ShapeErrors.

Context {R : Type} {SR : Scalar R}.













End ShapeErrors.

Section OtherShapes.

Context {R : Type} {SR : Scalar R} {DV : Devices R} {INV : Inverse R}.

Variable cb : crossbar R.

Hypothesis WS : well_shaped cb.
Hypothesis n_two : 2 <= n cb.
Hypothesis m_one : 1 <= m cb.















End OtherShapes.

Section NoColumns.

Context {R : Type} {SR : Scalar R} {DV : Devices R} {INV : Inverse R}.

Variable cb : crossbar R.

Hypothesis WS : well_shaped cb.
Hypothesis n_two : 2 <= n cb.
Hypothesis m_zero : m cb = 0.









End NoColumns.


(** ** Voltage vectors of another length *)

Section ShortVector.

Context {R : Type} {SR : Scalar R} {DV : Devices R} {INV : Inverse R}.

Variable cb : crossbar R.

Hypothesis WS : well_shaped cb.
Hypothesis n_two : 2 <= n cb.





End ShortVector.

(** C1.  On every well-shaped crossbar with [n >= 2] rows and
    [2 <= m <= n] columns, every [n x m] conductance matrix and every
    length-[m] voltage vector, [make_C] evaluates to [None] and [solve_v]
    raises [TypeError] when it concatenates that value with [D]: no
    coefficient matrix is assembled, the inverse is never taken and the
    cache is left as it was. *)
Theorem solve_v_raises_TypeError {R : Type} {SR : Scalar R} {INV : Inverse R}
  (cb : crossbar R) (W v : tensor R) (c : cache R) :
  well_shaped cb -> 2 <= n cb -> 2 <= m cb -> m cb <= n cb ->
  shape W = [n cb; m cb] -> shape v = [m cb] ->
  make_C cb W = Ok VNone /\
  assemble cb W v = Raise TypeError /\
  solve_v cb W v c = (Raise TypeError, c).
Proof.
  intros WS Hn Hm Hmn HW Hv.
  assert (HA : assemble cb W v = Raise TypeError)
    by (apply (assemble_valid cb WS W v (m cb)); assumption || lia).
  split; [| split].
  - unfold make_C; rewrite (make_C_block_ok cb W HW) by lia; reflexivity.
  - exact HA.
  - unfold solve_v; rewrite HA; reflexivity.
Qed.

Lemma solve_v_raises_TypeError_witness :
  on_crossbar crossbar22 (fun cb =>
    let v := mkT [2] [5; 7]%Z in
    (well_shaped cb /\ 2 <= n cb /\ 2 <= m cb /\ m cb <= n cb /\
     shape W22 = [n cb; m cb] /\ shape v = [m cb]) /\
    make_C cb W22 = Ok VNone /\
    assemble cb W22 v = Raise TypeError /\
    solve_v (INV := gauss_jordan) cb W22 v None = (Raise TypeError, None)).
Proof.
  unfold on_crossbar.
  destruct crossbar22 as [cb | e] eqn:E; [| vm_compute in E; discriminate E].
  pose proof (init_well_shaped (DV := ohmic_devices) _ _ _ _ _ E) as WS.
  pose proof (init_inv (DV := ohmic_devices) _ _ _ _ _ E) as [Hs _].
  assert (Hn : n cb = 2) by (simpl in Hs; congruence).
  assert (Hm : m cb = 2) by (simpl in Hs; congruence).
  assert (Hv : shape (mkT [2] [5; 7]%Z) = [m cb]) by (rewrite Hm; reflexivity).
  cbv zeta; split.
  - split; [exact WS |].
    split; [lia |]; split; [lia |]; split; [lia |]; split; assumption.
  - apply (solve_v_raises_TypeError (INV := gauss_jordan) cb W22 (mkT [2] [5; 7]%Z) None);
      try assumption; lia.
Defined.



(** The conductance matrices of the shapes [(r, c)], [r, c <= 4], on the
    [2 x 2] crossbar, and some of rank 0, 1 and 3: all but the [2 x 2]
    one end the assembly with a shape error. *)
Lemma other_shapes_2x2 :
  on_crossbar crossbar22 (fun cb =>
    let matrix s := mkT s (repeat 1%Z (numel s)) in
    let v := mkT [2] [5; 7]%Z in
    forallb (fun r =>
      forallb (fun c =>
        Bool.eqb (raises_shape_mismatch (assemble cb (matrix [r; c]) v))
                 (negb ((r =? 2) && (c =? 2))))
        (seq 0 5))
      (seq 0 5) = true /\
    forallb (fun s => raises_shape_mismatch (assemble cb (matrix s) v))
      [[]; [0]; [2]; [4]; [2; 2; 2]; [1; 2; 2]] = true).
Proof. vm_compute; split; reflexivity. Qed.


(** ** One round of the refinement loop *)

Section Refinement.

Context {R : Type} {SR : Scalar R}.

Variable cb : crossbar R.

Hypothesis WS : well_shaped cb.
Hypothesis n_pos : 1 <= n cb.
Hypothesis m_pos : 1 <= m cb.

Variable V : tensor R.

Hypothesis V_wf : wf V.
Hypothesis V_numel : numel (shape V) = 2 * (m cb * n cb).

Lemma zn_not_hole (k : nat) : (zn k =? -1)%Z = false.
Proof. apply Z.eqb_neq; unfold zn; lia. Qed.

Lemma zn_nonneg (k : nat) : (0 <=? zn k)%Z = true.
Proof. apply Z.leb_le; unfold zn; lia. Qed.

Lemma view_wl_bl :
  view V [(-1)%Z; zn (m cb); zn (n cb)] = Ok (mkT [2; m cb; n cb] (data V)).
Proof.
  assert (Hk : filter (fun d => negb (d =? -1)%Z) [(-1)%Z; zn (m cb); zn (n cb)]
               = [zn (m cb); zn (n cb)])
    by (cbn [filter]; rewrite Z.eqb_refl, !zn_not_hole; reflexivity).
  unfold view; rewrite Hk; cbn [length Nat.sub forallb map].
  rewrite !zn_nonneg; cbn [andb negb].
  rewrite Z.eqb_refl, !zn_not_hole.
  unfold zn; rewrite !Nat2Z.id, V_numel.
  assert (Hp : numel [m cb; n cb] = m cb * n cb) by (simpl; lia).
  rewrite Hp.
  destruct (m cb * n cb =? 0) eqn:E0; [apply Nat.eqb_eq in E0; nia |].
  rewrite Nat.Div0.mod_mul, Nat.div_mul by nia.
  reflexivity.
Qed.

Lemma index_data_slices (s : list nat) (xs : list R) :
  length xs = numel s -> index_data s (repeat SliceAll (length s)) xs = xs.
Proof.
  revert xs; induction s as [| d s IH]; intros xs H; [reflexivity |].
  cbn [length repeat index_data].
  transitivity (flat_map (fun o => chunk (numel s) o xs) (seq 0 d));
    [| apply chunks_concat; exact H].
  apply flat_map_ext_seq; intros o Ho.
  apply IH, chunk_length; simpl in H; rewrite H; nia.
Qed.

Lemma getitem_plane (k : nat) :
  k < 2 ->
  getitem (mkT [2; m cb; n cb] (data V)) [Idx (zn k); SliceAll; SliceAll] = Ok (plane cb V k).
Proof.
  intros Hk; unfold getitem; cbn [shape data index_shape].
  rewrite (wrap_index_nat k 2 Hk); cbn [bind index_data].
  rewrite (wrap_index_nat k 2 Hk).
  assert (Hp : numel [m cb; n cb] = m cb * n cb) by (simpl; lia).
  rewrite Hp; unfold plane; do 2 f_equal.
  apply (index_data_slices [m cb; n cb]).
  rewrite Hp; apply chunk_length.
  unfold wf in V_wf; rewrite V_wf, V_numel; nia.
Qed.

Lemma plane_entry (k i j : nat) :
  i < n cb -> j < m cb ->
  get2 (plane cb V k) j i = nth (k * (m cb * n cb) + j * n cb + i) (data V) szero.
Proof.
  intros Hi Hj; unfold get2, plane; cbn [shape data nth].
  rewrite chunk_nth by nia; f_equal; lia.
Qed.

Lemma split_and_subtract :
  (wb <- split_wl_bl (mkT [2; m cb; n cb] (data V)) ;; tsub (snd wb) (fst wb)) = Ok (V_diff cb V).
Proof.
  unfold split_wl_bl.
  change (Idx 0%Z) with (Idx (zn 0)); change (Idx 1%Z) with (Idx (zn 1)).
  rewrite (getitem_plane 0) by lia; cbn [bind].
  rewrite (t_matrix (plane cb V 0) (m cb) (n cb)) by reflexivity; cbn [bind].
  rewrite (getitem_plane 1) by lia; cbn [bind].
  rewrite (t_matrix (plane cb V 1) (m cb) (n cb)) by reflexivity; cbn [bind fst snd].
  unfold tsub; rewrite binop_same_shape by (reflexivity || apply mk2_wf).
  rewrite zip_with_mk2; reflexivity.
Qed.

Lemma V_diff_entry (i j : nat) :
  i < n cb -> j < m cb -> get2 (V_diff cb V) i j = voltage_drop cb V i j.
Proof.
  intros Hi Hj; unfold V_diff, voltage_drop; rewrite get2_mk2 by assumption.
  rewrite !plane_entry by assumption; f_equal; f_equal; lia.
Qed.

Lemma device_at_ok (i j : nat) :
  i < n cb -> j < m cb -> device_at cb i j = Ok (device cb i j).
Proof.
  intros Hi Hj; unfold device_at, device.
  pose proof (ws_rows WS) as Hr; pose proof (ws_cols WS) as Hc.
  destruct (nth_error (memristors cb) i) as [r |] eqn:E;
    [| apply nth_error_None in E; lia].
  rewrite (nth_error_nth _ _ [] E).
  assert (Hlen : length r = m cb)
    by (rewrite Forall_forall in Hc; apply Hc; eapply nth_error_In; exact E).
  destruct (nth_error r j) as [d |] eqn:E'; [| apply nth_error_None in E'; lia].
  rewrite (nth_error_nth _ _ spare_device E'); reflexivity.
Qed.

Lemma currents_ok :
  mapM (fun i =>
          mapM (fun j =>
                  d <- device_at cb i j ;;
                  x <- getitem (V_diff cb V) [Idx (zn i); Idx (zn j)] ;;
                  Ok (inference d (item x)))
               (seq 0 (m cb)))
       (seq 0 (n cb))
  = Ok (map (fun i => map (current cb V i) (seq 0 (m cb))) (seq 0 (n cb))).
Proof.
  apply mapM_ok; intros i Hi; apply in_seq in Hi.
  apply mapM_ok; intros j Hj; apply in_seq in Hj.
  rewrite device_at_ok by lia; cbn [bind].
  rewrite (getitem_entry (V_diff cb V) (n cb) (m cb) i j)
    by (reflexivity || apply mk2_wf || lia).
  cbn [bind]; unfold item, current; cbn [data nth].
  rewrite V_diff_entry by lia; reflexivity.
Qed.

Lemma tensor_of_rows_mk2 (f : nat -> nat -> R) :
  tensor_of_rows (map (fun i => map (f i) (seq 0 (m cb))) (seq 0 (n cb)))
  = mk2 (n cb) (m cb) f.
Proof.
  unfold tensor_of_rows, mk2.
  destruct (n cb) as [| k] eqn:E; [lia |].
  cbn [seq map]; rewrite <- (seq_shift k 0).
  cbn [length]; rewrite !length_map, !length_seq.
  rewrite flat_map_concat_map; reflexivity.
Qed.

Lemma refine_W_ok :
  refine_W cb V
  = Ok (mk2 (n cb) (m cb) (fun i j => sdiv (current cb V i j) (voltage_drop cb V i j))).
Proof.
  unfold refine_W; rewrite view_wl_bl; cbn [bind].
  pose proof split_and_subtract as H; unfold bind in H.
  destruct (split_wl_bl _) as [wb | e]; [| discriminate H].
  cbn [bind]; rewrite H; cbn [bind].
  rewrite currents_ok; cbn [bind].
  rewrite tensor_of_rows_mk2.
  unfold tdiv; rewrite binop_same_shape by (reflexivity || apply mk2_wf).
  unfold V_diff at 1; rewrite zip_with_mk2.
  change (mkT (shape (mk2 (n cb) (m cb) (current cb V))) ?d) with (mkT [n cb; m cb] d).
  f_equal; apply mk2_ext; intros i j Hi Hj.
  fold (V_diff cb V); rewrite <- V_diff_entry by assumption.
  unfold V_diff; rewrite get2_mk2 by assumption; reflexivity.
Qed.

End Refinement.

(** The conductance update in the body of the loop, taken alone on a
    tensor of [2 n m] node voltages: every cell receives the quotient
    [inference(dV[i,j]) / dV[i,j]] of its device's current by its drop.
    No call of [lineres_memristive_vmm] reaches this update, the solve
    before the loop raising on every input ([lineres_never_returns]). *)
Lemma refine_W_overwrites {R : Type} {SR : Scalar R} (cb : crossbar R) (V : tensor R) :
  well_shaped cb -> 1 <= n cb -> 1 <= m cb ->
  wf V -> numel (shape V) = 2 * (m cb * n cb) ->
  exists W',
    refine_W cb V = Ok W' /\ shape W' = [n cb; m cb] /\
    forall i j, i < n cb -> j < m cb ->
      exists d, device_at cb i j = Ok d /\
        get2 W' i j = sdiv (inference d (voltage_drop cb V i j)) (voltage_drop cb V i j).
Proof.
  intros WS Hn Hm Hwf Hnum.
  eexists; split; [apply (refine_W_ok cb WS Hn Hm V Hwf Hnum) |].
  split; [reflexivity |].
  intros i j Hi Hj; exists (device cb i j); split.
  - apply (device_at_ok cb WS Hn Hm V Hnum); assumption.
  - rewrite get2_mk2 by assumption; reflexivity.
Qed.

Lemma refine_W_overwrites_witness :
  on_crossbar (crossbar_f32 W22_f32) (fun cb =>
    (well_shaped cb /\ 1 <= n cb /\ 1 <= m cb /\ wf V_flat_cell /\
     numel (shape V_flat_cell) = 2 * (m cb * n cb)) /\
    exists W' d,
      refine_W cb V_flat_cell = Ok W' /\ device_at cb 1 1 = Ok d /\
      get2 W' 1 1
      = sdiv (inference d (voltage_drop cb V_flat_cell 1 1)) (voltage_drop cb V_flat_cell 1 1)).
Proof.
  unfold on_crossbar.
  destruct (crossbar_f32 W22_f32) as [cb | e] eqn:E; [| vm_compute in E; discriminate E].
  unfold crossbar_f32 in E.
  pose proof (init_well_shaped (DV := ohmic_devices) _ _ _ _ _ E) as WS.
  pose proof (init_inv (DV := ohmic_devices) _ _ _ _ _ E) as [Hs _].
  assert (Hn : n cb = 2) by (simpl in Hs; congruence).
  assert (Hm : m cb = 2) by (simpl in Hs; congruence).
  assert (Hwf : wf V_flat_cell) by reflexivity.
  assert (Hnum : numel (shape V_flat_cell) = 2 * (m cb * n cb))
    by (rewrite Hn, Hm; reflexivity).
  split; [split; [exact WS |]; split; [lia |]; split; [lia |]; split; assumption |].
  destruct (refine_W_overwrites cb V_flat_cell WS ltac:(lia) ltac:(lia) Hwf Hnum)
    as (W' & HW & _ & Hent).
  destruct (Hent 1 1 ltac:(lia) ltac:(lia)) as (d & Hd & Hg).
  exists W', d; repeat split; assumption.
Defined.

(** The same update on a tensor of node voltages whose first cell has
    equal word-line and bit-line voltages, with ohmic devices on a
    [2 x 2] crossbar: the quotient of zero by zero, a NaN, is what the
    update computes for that cell.  The tensor is given by hand, [solve_v]
    returning none. *)
Lemma zero_drop_cell_not_kept :
  on_crossbar (crossbar_f32 W22_f32) (fun cb =>
    voltage_drop cb V_flat_cell 0 0 = S754_zero false /\
    get2 (fitted_w cb) 0 0 = f32 1e-4 /\
    exists W',
      refine_W cb V_flat_cell = Ok W' /\
      get2 W' 0 0 = S754_nan /\
      get2 W' 0 0 <> get2 (fitted_w cb) 0 0).
Proof.
  vm_compute; split; [reflexivity |]; split; [reflexivity |].
  eexists; split; [reflexivity |]; split; [reflexivity | discriminate].
Qed.

(** ** The right-hand side and the bit-line output bias *)

(** C6.  On a well-shaped crossbar with [n >= 2] rows and a voltage
    vector of at least [m] entries, whatever bias [v_bl_out] holds:
    with [m <= n], [make_E] returns the column of length [2 n m] whose
    word-line half has, for each column [i], [v[i] * g_s_wl_in[i]] at the
    input end, [v_wl_out[i] * g_s_wl_out[i]] at the output end and zeros
    between, and whose bit-line half has [-v_bl_in[i] * g_s_bl_in[i]] and
    [-v_bl_in[i] * g_s_bl_out[i]] at the two ends: the bit-line output
    bias is not read, the input bias standing in its place.  With
    [m > n], [make_E] raises [IndexError], the length-[n] bit-line vectors
    being read at the column index. *)
Theorem make_E_entries {R : Type} {SR : Scalar R}
  (cb : crossbar R) (v bias : tensor R) (len : nat) :
  well_shaped cb -> 2 <= n cb -> 1 <= m cb -> vector_of len v -> m cb <= len ->
  (m cb <= n cb ->
   make_E (with_v_bl_out cb bias) v
   = Ok (mkT [2 * (m cb * n cb); 1]
           (flat_map (E_W_entries cb v) (seq 0 (m cb))
            ++ flat_map (E_B_entries cb) (seq 0 (m cb))))) /\
  (n cb < m cb -> make_E (with_v_bl_out cb bias) v = Raise IndexError).
Proof.
  intros WS Hn Hm Hv Hlen.
  change (make_E (with_v_bl_out cb bias) v) with (make_E cb v).
  split.
  - intros Hmn; apply (make_E_ok cb WS Hn v len); assumption.
  - intros Hnm; apply (make_E_more_columns cb WS Hn v); exact Hnm.
Qed.

Lemma make_E_entries_witness :
  on_crossbar (crossbar_f32 W22_f32) (fun cb =>
    let v := mkT [2] [f32 0.2; f32 0.1] in
    let bias := mkT [2] [f32 1; f32 1] in
    (well_shaped cb /\ 2 <= n cb /\ 1 <= m cb /\ vector_of 2 v /\ m cb <= 2 /\
     m cb <= n cb) /\
    v_bl_out (with_v_bl_out cb bias) = bias /\
    make_E (with_v_bl_out cb bias) v
    = Ok (mkT [8; 1]
            [f32 0.2; S754_zero false; f32 0.1; S754_zero false;
             S754_zero true; S754_zero true; S754_zero true; S754_zero true]))
  /\
  on_crossbar
    (crossbar_f32 (mkT [2; 3] [f32 1e-4; f32 2e-4; f32 5e-5; f32 1e-4; f32 1e-4; f32 1e-4]))
    (fun cb =>
       let v := mkT [3] [f32 0.2; f32 0.1; f32 0.1] in
       (well_shaped cb /\ 2 <= n cb /\ 1 <= m cb /\ vector_of 3 v /\ m cb <= 3 /\
        n cb < m cb) /\
       make_E (with_v_bl_out cb (v_bl_out cb)) v = Raise IndexError).
Proof.
  split; unfold on_crossbar.
  - destruct (crossbar_f32 W22_f32) as [cb | e] eqn:E; [| vm_compute in E; discriminate E].
    unfold crossbar_f32 in E.
    pose proof (init_well_shaped (DV := ohmic_devices) _ _ _ _ _ E) as WS.
    pose proof (init_inv (DV := ohmic_devices) _ _ _ _ _ E)
      as (Hs & _ & _ & _ & _ & _ & Hgi & Hgo & Hbi & Hbo & Hvi & _ & Hvo).
    assert (Hn : n cb = 2) by (simpl in Hs; congruence).
    assert (Hm : m cb = 2) by (simpl in Hs; congruence).
    assert (Hv : vector_of 2 (mkT [2] [f32 0.2; f32 0.1])) by (split; reflexivity).
    cbv zeta; split; [| split; [reflexivity |]].
    + split; [exact WS |]; split; [lia |]; split; [lia |]; split; [exact Hv |].
      split; lia.
    + destruct (make_E_entries cb (mkT [2] [f32 0.2; f32 0.1]) (mkT [2] [f32 1; f32 1]) 2
                  WS ltac:(lia) ltac:(lia) Hv ltac:(lia)) as [Hok _].
      rewrite (Hok ltac:(lia)).
      unfold E_W_entries, E_B_entries; rewrite Hgi, Hgo, Hbi, Hbo, Hvi, Hvo, Hn, Hm.
      vm_compute; reflexivity.
  - destruct (crossbar_f32 _) as [cb | e] eqn:E; [| vm_compute in E; discriminate E].
    unfold crossbar_f32 in E.
    pose proof (init_well_shaped (DV := ohmic_devices) _ _ _ _ _ E) as WS.
    pose proof (init_inv (DV := ohmic_devices) _ _ _ _ _ E) as (Hs & _).
    assert (Hn : n cb = 2) by (simpl in Hs; congruence).
    assert (Hm : m cb = 3) by (simpl in Hs; congruence).
    assert (Hv : vector_of 3 (mkT [3] [f32 0.2; f32 0.1; f32 0.1])) by (split; reflexivity).
    cbv zeta; split.
    + split; [exact WS |]; split; [lia |]; split; [lia |]; split; [exact Hv |].
      split; lia.
    + destruct (make_E_entries cb (mkT [3] [f32 0.2; f32 0.1; f32 0.1]) (v_bl_out cb) 3
                  WS ltac:(lia) ltac:(lia) Hv ltac:(lia)) as [_ Hbad].
      apply Hbad; lia.
Defined.

(** ** The one-cell crossbar *)

(** C9.  On a crossbar constructed from a [1 x 1] ideal matrix [[a]], the
    Ideal multiply of the one-entry input [x] returns the one-entry vector
    [a * x] (the product, added to zero), while the full multiply returns
    nothing: the fitted matrix was squeezed to zero dimensions, and
    [make_A] raises [IndexError] when it subscripts it, whatever the
    number of rounds asked for. *)
Theorem one_cell_crossbar {R : Type} {SR : Scalar R} {DV : Devices R} {INV : Inverse R}
  (mm : memristor_model) (mp : memristor_params R) (a : R) (cp : crossbar_params)
  (cb : crossbar R) (x : R) (iter : Z) (c : cache R) :
  init mm mp (mkT [1; 1] [a]) cp = Ok cb ->
  ideal_vmm cb (mkT [1] [x]) = Ok (mkT [1] [sadd szero (smul a x)]) /\
  lineres_memristive_vmm cb (mkT [1] [x]) iter c = (Raise IndexError, c).
Proof.
  intros H.
  pose proof (init_inv _ _ _ _ _ H) as (Hs & Hw & _).
  assert (Hn : n cb = 1) by (simpl in Hs; congruence).
  assert (Hm : m cb = 1) by (simpl in Hs; congruence).
  split.
  - unfold ideal_vmm; rewrite Hw; reflexivity.
  - assert (Hf : shape (fitted_w cb) = [])
      by (rewrite (fitted_shape _ _ _ _ _ H) by lia; rewrite Hn, Hm; reflexivity).
    assert (HA : make_A cb (fitted_w cb) = Raise IndexError).
    { unfold make_A, t; rewrite Hf, Hm; cbn [bind seq mapM].
      unfold makea, getitem; rewrite Hf; reflexivity. }
    unfold lineres_memristive_vmm, solve_v, assemble; rewrite HA; reflexivity.
Qed.

Lemma one_cell_crossbar_witness :
  on_crossbar (crossbar_f32 (mkT [1; 1] [f32 1e-4])) (fun cb =>
    ideal_vmm cb (mkT [1] [f32 0.2]) = Ok (mkT [1] [f32 2e-5]) /\
    lineres_memristive_vmm (INV := gauss_jordan) cb (mkT [1] [f32 0.2]) 1 None
    = (Raise IndexError, None)).
Proof.
  unfold on_crossbar.
  destruct (crossbar_f32 _) as [cb | e] eqn:E; [| vm_compute in E; discriminate E].
  unfold crossbar_f32 in E.
  destruct (one_cell_crossbar (DV := ohmic_devices) (INV := gauss_jordan)
              _ _ _ _ cb (f32 0.2) 1 None E) as [Hi Hl].
  split; [rewrite Hi; vm_compute; reflexivity | exact Hl].
Defined.
